(** * celtic: cooldown-rotation optimiser

    A shallow embedding of the three source variants of the damage
    optimiser:
    - [main.ts]: gear enumeration, depth-first schedule search, set-up
      optimiser;
    - the queue-based variant (breadth-first search with one bounded
      min-heap per five-second checkpoint);
    - [main.cpp]: the depth-first search and optimiser with the [EPS]
      tolerance.

    Numbers.  A JavaScript [number] / C++ [double] is modelled as an exact
    rational [Q]: IEEE-754 rounding, overflow to an infinity and NaN are
    outside the model.  The two places where the source can leave the finite
    numbers are made explicit: reading an array past its end (JavaScript
    yields [undefined], whose arithmetic is NaN; C++ has no defined
    behaviour) is the outcome [Undefined], and [Number.POSITIVE_INFINITY] is
    the [None] of an [option Q].

    Effects.  The searches mutate captured variables and shared arrays; the
    model passes that memory explicitly.  Recursion and the work-queue loop
    need not terminate, so both take fuel and can answer [OutOfFuel]. *)

From stdpp Require Import base option list gmap strings.
From Stdlib Require Import QArith Qabs Qround Qminmax Lqa.

Open Scope Q_scope.
Set Warnings "-abstract-large-number".


(** ** Outcomes of a run *)

Inductive outcome (A : Type) : Type :=
  | Done (a : A)
  | OutOfFuel
  | Undefined.
Arguments Done {A} a.
Arguments OutOfFuel {A}.
Arguments Undefined {A}.

Global Instance outcome_ret : MRet outcome := fun _ a => Done a.
Global Instance outcome_bind : MBind outcome := fun _ _ f m =>
  match m with
  | Done a => f a
  | OutOfFuel => OutOfFuel
  | Undefined => Undefined
  end.
Global Instance outcome_fmap : FMap outcome := fun _ _ f m =>
  match m with
  | Done a => Done (f a)
  | OutOfFuel => OutOfFuel
  | Undefined => Undefined
  end.

(** [arr[i]] used as a number or an object: past the end it is [undefined]. *)
Definition read {A} (arr : list A) (i : nat) : outcome A :=
  match arr !! i with
  | Some x => Done x
  | None => Undefined
  end.

(** [for (const x of xs) body(x)] over a memory [M]. *)
Fixpoint for_each {A M} (body : A → M → outcome M) (xs : list A) (m : M)
  : outcome M :=
  match xs with
  | [] => Done m
  | x :: xs' => m' ← body x m; for_each body xs' m'
  end.

(** ** Data model *)

Record Skill := {
  skillName : string;
  castTimeS : Q;
  recastTimeS : Q;
  damage : Q;
  possibleSkillGear : list Q
}.

Record ScheduleResult := {
  totalDamage : Q;
  sequence : list string
}.

(** ** generateAllGearChoices *)

Module Gear.

(** [current[index] = v].  For [index <= current.length] this is an
    overwrite or an append; a larger index would leave holes in a JavaScript
    array, which [backtrack] never does: it is entered with
    [index <= current.length] and writes slot [index] before descending. *)
Definition array_set (index : nat) (v : Q) (current : list Q) : list Q :=
  take index current ++ v :: drop (S index) current.

Record Mem := {
  current : list Q;
  results : list (list Q)
}.

(** [backtrack(index, current)].  [rest] is [gearArrays] from position
    [index] on, so the test [index === skills.length] is [rest = []] and
    [gearArrays[index]] is its head. *)
Fixpoint backtrack (rest : list (list Q)) (index : nat) (m : Mem) : Mem :=
  match rest with
  | [] => {| current := current m; results := results m ++ [current m] |}
  | gears :: rest' =>
      fold_left
        (fun m gearPercent =>
           backtrack rest' (S index)
             {| current := array_set index gearPercent (current m);
                results := results m |})
        gears m
  end.

(** [main.ts] and the queue variant start from [current = []]. *)
Definition generateAllGearChoices (skills : list Skill) : list (list Q) :=
  let gearArrays := map possibleSkillGear skills in
  results (backtrack gearArrays 0 {| current := []; results := [] |}).

(** [main.cpp] starts from [temp(skills.size())], a vector of zeros. *)
Definition generateAllGearChoices_cpp (skills : list Skill) : list (list Q) :=
  let gearArrays := map possibleSkillGear skills in
  results (backtrack gearArrays 0
             {| current := replicate (length skills) 0; results := [] |}).

(** The Cartesian product in the order of the specification: the first
    action varies slowest, each action's options in their own order. *)
Fixpoint cartesian (options : list (list Q)) : list (list Q) :=
  match options with
  | [] => [[]]
  | opts :: rest => x ← opts; map (cons x) (cartesian rest)
  end.

Definition product_of_sizes (options : list (list Q)) : nat :=
  foldr (fun opts acc => (length opts * acc)%nat) 1%nat options.

End Gear.

(** ** The by-reference arguments of a schedule search

    [skills] and [gearCombo] are arrays owned by the caller.  They are part
    of the memory a search runs in, so that what the search does to them is
    a statement about its final memory. *)

Record Args := {
  arg_skills : list Skill;
  arg_gearCombo : list Q
}.

(** [skills.map((skill, i) => skill.recastTimeS * (1 - gearCombo[i] / 100))].
    An entry is [None] (NaN) where [gearCombo] has no entry [i]. *)
Definition effectiveRecast (skills : list Skill) (gearCombo : list Q)
  : list (option Q) :=
  imap (fun i skill =>
          match gearCombo !! i with
          | Some g => let pct := g / 100 in Some (recastTimeS skill * (1 - pct))
          | None => None
          end) skills.

(** A numeric read of [arr[i]] that is then used in arithmetic. *)
Definition read_number (arr : list (option Q)) (i : nat) : outcome Q :=
  match arr !! i with
  | Some (Some x) => Done x
  | _ => Undefined
  end.

(** ** findBestDamageSchedule, depth-first ([main.ts], [main.cpp]) *)

Module Dfs.

Record Mem := {
  args : Args;
  bestDamageSoFar : Q;
  bestSequenceSoFar : list string;
  nextAvailTimes : list Q;
  castSequence : list string
}.

Definition record_best (totalDamageSoFar : Q) (m : Mem) : Mem :=
  {| args := args m;
     bestDamageSoFar := totalDamageSoFar;
     bestSequenceSoFar := castSequence m;
     nextAvailTimes := nextAvailTimes m;
     castSequence := castSequence m |}.

(** [nextAvailTimes[i] = v; castSequence.push(name)] *)
Definition enter (i : nat) (v : Q) (name : string) (m : Mem) : Mem :=
  {| args := args m;
     bestDamageSoFar := bestDamageSoFar m;
     bestSequenceSoFar := bestSequenceSoFar m;
     nextAvailTimes := <[i := v]> (nextAvailTimes m);
     castSequence := castSequence m ++ [name] |}.

(** [castSequence.pop(); nextAvailTimes[i] = oldNextAvail] *)
Definition leave (i : nat) (oldNextAvail : Q) (m : Mem) : Mem :=
  {| args := args m;
     bestDamageSoFar := bestDamageSoFar m;
     bestSequenceSoFar := bestSequenceSoFar m;
     nextAvailTimes := <[i := oldNextAvail]> (nextAvailTimes m);
     castSequence := removelast (castSequence m) |}.

Section Search.

(** [eps] is the tolerance of the feasibility test: [0] in [main.ts]
    ([castEnd > timeLimit]), [EPS] in [main.cpp]
    ([castEnd > timeLimit + EPS]). *)
Variable eps : Q.
Variable timeLimit : Q.
Variable effectiveRecast : list (option Q).

(** One iteration of [for (let i = 0; i < skills.length; i++)]; [dfs] is
    the recursive call. *)
Definition try_cast (dfs : Q → Q → Mem → outcome Mem)
    (currentTime totalDamageSoFar : Q) (i : nat) (m : Mem) : outcome Mem :=
  skill ← read (arg_skills (args m)) i;
  earliestStart ← read (nextAvailTimes m) i;
  if Qlt_le_dec timeLimit earliestStart then Done m
  else
    let startTime := Qmax currentTime earliestStart in
    let castEnd := startTime + castTimeS skill in
    if Qlt_le_dec (timeLimit + eps) castEnd then Done m
    else
      oldNextAvail ← read (nextAvailTimes m) i;
      recast ← read_number effectiveRecast i;
      m' ← dfs castEnd (totalDamageSoFar + damage skill)
              (enter i (castEnd + recast) (skillName skill) m);
      Done (leave i oldNextAvail m').

(** [skills.length] is read once for the whole loop: no iteration changes
    the array (lemma [dfs_frame]). *)
Fixpoint dfs (fuel : nat) (currentTime totalDamageSoFar : Q) (m : Mem)
  : outcome Mem :=
  match fuel with
  | O => OutOfFuel
  | S fuel' =>
      let m1 :=
        if Qlt_le_dec (bestDamageSoFar m) totalDamageSoFar
        then record_best totalDamageSoFar m else m in
      for_each (try_cast (dfs fuel') currentTime totalDamageSoFar)
               (seq 0 (length (arg_skills (args m1)))) m1
  end.

End Search.

Definition initial (a : Args) : Mem :=
  {| args := a;
     bestDamageSoFar := 0;
     bestSequenceSoFar := [];
     nextAvailTimes := map (fun _ => 0) (arg_skills a);
     castSequence := [] |}.

Definition search (eps : Q) (fuel : nat) (a : Args) (timeLimit : Q)
  : outcome (ScheduleResult * Args) :=
  let eff := effectiveRecast (arg_skills a) (arg_gearCombo a) in
  m ← dfs eps timeLimit eff fuel 0 0 (initial a);
  Done ({| totalDamage := bestDamageSoFar m;
           sequence := bestSequenceSoFar m |}, args m).

(** [main.ts] *)
Definition findBestDamageSchedule := search 0.

(** [main.cpp]: [static const double EPS = 1e-9] *)
Definition EPS : Q := 1 # 1000000000.
Definition findBestDamageSchedule_cpp := search EPS.

End Dfs.

(** ** findBestDamageSchedule, bounded frontier (the queue variant) *)

Module Bfs.

Record State := {
  currentTime : Q;
  damageSoFar : Q;
  nextAvail : list Q;
  castSequence : list string
}.

(** [MinPriorityQueue<State>] of the package
    [@datastructures-js/priority-queue], built with the priority
    [state => state.damageSoFar].  The package is not part of the
    repository; the model keeps the entries in ascending priority, which
    gives the documented contract of the four operations used here:
    [size], [enqueue], [front] (an entry of least priority, [null] when
    empty) and [dequeue] (removes that entry).  Which of several entries of
    equal priority is in front is not fixed by the package; the search only
    reads [front().damageSoFar], which does not depend on it. *)
Module Heap.
Definition t := list State.
Definition empty : t := [].
Definition size (h : t) : nat := length h.
Fixpoint enqueue (s : State) (h : t) : t :=
  match h with
  | [] => [s]
  | x :: h' =>
      if Qlt_le_dec (damageSoFar s) (damageSoFar x) then s :: x :: h'
      else x :: enqueue s h'
  end.
Definition front (h : t) : option State := head h.
Definition dequeue (h : t) : t := tail h.
End Heap.

(** [evictions] and [prunes] are not in the source: they count how often
    the eviction branch and the silent [else] branch were taken, so that
    "no state was evicted or pruned" can be said of a run. *)
Record Mem := {
  args : Args;
  queue : list State;
  topStatesPerCheckpoint : gmap Z Heap.t;
  bestDamage : Q;
  bestSequence : list string;
  expansions : nat;
  evictions : nat;
  prunes : nat
}.

Definition set_queue (q : list State) (m : Mem) : Mem :=
  {| args := args m; queue := q;
     topStatesPerCheckpoint := topStatesPerCheckpoint m;
     bestDamage := bestDamage m; bestSequence := bestSequence m;
     expansions := expansions m; evictions := evictions m;
     prunes := prunes m |}.

Definition set_heap (cp : Z) (h : Heap.t) (m : Mem) : Mem :=
  {| args := args m; queue := queue m;
     topStatesPerCheckpoint := <[cp := h]> (topStatesPerCheckpoint m);
     bestDamage := bestDamage m; bestSequence := bestSequence m;
     expansions := expansions m; evictions := evictions m;
     prunes := prunes m |}.

Definition set_best (d : Q) (s : list string) (m : Mem) : Mem :=
  {| args := args m; queue := queue m;
     topStatesPerCheckpoint := topStatesPerCheckpoint m;
     bestDamage := d; bestSequence := s;
     expansions := expansions m; evictions := evictions m;
     prunes := prunes m |}.

Definition count_expansion (m : Mem) : Mem :=
  {| args := args m; queue := queue m;
     topStatesPerCheckpoint := topStatesPerCheckpoint m;
     bestDamage := bestDamage m; bestSequence := bestSequence m;
     expansions := S (expansions m); evictions := evictions m;
     prunes := prunes m |}.

Definition count_eviction (m : Mem) : Mem :=
  {| args := args m; queue := queue m;
     topStatesPerCheckpoint := topStatesPerCheckpoint m;
     bestDamage := bestDamage m; bestSequence := bestSequence m;
     expansions := expansions m; evictions := S (evictions m);
     prunes := prunes m |}.

Definition count_prune (m : Mem) : Mem :=
  {| args := args m; queue := queue m;
     topStatesPerCheckpoint := topStatesPerCheckpoint m;
     bestDamage := bestDamage m; bestSequence := bestSequence m;
     expansions := expansions m; evictions := evictions m;
     prunes := S (prunes m) |}.

(** [Math.floor(castEnd / 5) * 5], the key of the checkpoint bucket. *)
Definition checkpoint_of (castEnd : Q) : Z := (Qfloor (castEnd / 5) * 5)%Z.

(** [ensureQueueForCheckpoint(cp); const heap = topStatesPerCheckpoint[cp]] *)
Definition heap_at (cp : Z) (m : Mem) : Heap.t :=
  default Heap.empty (topStatesPerCheckpoint m !! cp).

Section Search.

(** [K] is the retention capacity of a checkpoint: the literal [10000] of
    the source. *)
Variable K : nat.
Variable timeLimit : Q.
Variable effectiveRecast : list (option Q).

(** The retention decision for a freshly generated state. *)
Definition retain (newState : State) (m : Mem) : Mem :=
  let checkpoint := checkpoint_of (currentTime newState) in
  let heap := heap_at checkpoint m in
  if decide (Heap.size heap < K)%nat then
    let m := set_heap checkpoint (Heap.enqueue newState heap) m in
    set_queue (queue m ++ [newState]) m
  else
    match Heap.front heap with
    | Some worstTopState =>
        if Qlt_le_dec (damageSoFar worstTopState) (damageSoFar newState) then
          let m := set_heap checkpoint
                     (Heap.enqueue newState (Heap.dequeue heap)) m in
          count_eviction (set_queue (queue m ++ [newState]) m)
        else count_prune (set_heap checkpoint heap m)
    | None => count_prune (set_heap checkpoint heap m)
    end.

(** One iteration of the expansion loop over the skills. *)
Definition expand (state : State) (i : nat) (m : Mem) : outcome Mem :=
  skill ← read (arg_skills (args m)) i;
  earliestStart ← read (nextAvail state) i;
  if Qlt_le_dec timeLimit earliestStart then Done m
  else
    let startTime := Qmax (currentTime state) earliestStart in
    let castEnd := startTime + castTimeS skill in
    if Qlt_le_dec timeLimit castEnd then Done m
    else
      let newDamage := damageSoFar state + damage skill in
      recast ← read_number effectiveRecast i;
      let newNextAvail := <[i := castEnd + recast]> (nextAvail state) in
      let newSequence := castSequence state ++ [skillName skill] in
      let newState :=
        {| currentTime := castEnd; damageSoFar := newDamage;
           nextAvail := newNextAvail; castSequence := newSequence |} in
      Done (retain newState m).

(** [while (!queue.isEmpty()) { ... }] *)
Fixpoint loop (fuel : nat) (m : Mem) : outcome Mem :=
  match queue m with
  | [] => Done m
  | state :: rest =>
      match fuel with
      | O => OutOfFuel
      | S fuel' =>
          let m := count_expansion (set_queue rest m) in
          let m :=
            if Qlt_le_dec (bestDamage m) (damageSoFar state)
            then set_best (damageSoFar state) (castSequence state) m
            else m in
          m' ← for_each (expand state)
                  (seq 0 (length (arg_skills (args m)))) m;
          loop fuel' m'
      end
  end.

End Search.

Definition initial (a : Args) : Mem :=
  {| args := a;
     queue := [ {| currentTime := 0; damageSoFar := 0;
                   nextAvail := map (fun _ => 0) (arg_skills a);
                   castSequence := [] |} ];
     topStatesPerCheckpoint := ∅;
     bestDamage := 0;
     bestSequence := [];
     expansions := 0;
     evictions := 0;
     prunes := 0 |}.

(** The search with capacity [K]; the final memory is returned with the
    result so that statements can speak of the counters. *)
Definition run (K : nat) (fuel : nat) (a : Args) (timeLimit : Q)
  : outcome (ScheduleResult * Mem) :=
  let eff := effectiveRecast (arg_skills a) (arg_gearCombo a) in
  m ← loop K timeLimit eff fuel (initial a);
  Done ({| totalDamage := bestDamage m; sequence := bestSequence m |}, m).

Definition search (K : nat) (fuel : nat) (a : Args) (timeLimit : Q)
  : outcome (ScheduleResult * Args) :=
  '(r, m) ← run K fuel a timeLimit; Done (r, args m).

Definition findBestDamageSchedule := search 10000.

End Bfs.

(** ** findBestDpsSetup *)

Module Setup.

Record Result := {
  bestDamage : Q;
  bestDps : option Q;
  chosenGearPercents : list Q;
  castSequence : list string
}.

(** The four variables of the selection loop; [bestGearCost = None] is
    [Number.POSITIVE_INFINITY]. *)
Record Best := {
  topDamage : Q;
  topSequence : list string;
  bestGear : list Q;
  bestGearCost : option Q
}.

Definition start : Best :=
  {| topDamage := 0; topSequence := []; bestGear := [];
     bestGearCost := None |}.

(** [gearCombo.reduce((a, b) => a + b, 0)] *)
Definition gear_cost (gearCombo : list Q) : Q := fold_left Qplus gearCombo 0.

(** [thisCost < bestGearCost] *)
Definition cheaper (thisCost : Q) (bestGearCost : option Q) : bool :=
  match bestGearCost with
  | None => true
  | Some c => if Qlt_le_dec thisCost c then true else false
  end.

(** [totalDamage === topDamage] of the TypeScript variants. *)
Definition same_damage (totalDamage topDamage : Q) : bool :=
  Qeq_bool totalDamage topDamage.

(** [fabs(comboDamage - topDamage) < EPS] of [main.cpp]. *)
Definition close_damage (comboDamage topDamage : Q) : bool :=
  if Qlt_le_dec (Qabs (comboDamage - topDamage)) Dfs.EPS then true else false.

Section Optimiser.

(** The schedule search in use and the tie test of the variant. *)
Variable findBestDamageSchedule : list Skill → list Q → Q → outcome ScheduleResult.
Variable tie : Q → Q → bool.
Variable skills : list Skill.
Variable timeLimit : Q.

(** The body of [for (let i = 0; i < allGearCombos.length; i++)]. *)
Definition consider (gearCombo : list Q) (b : Best) : outcome Best :=
  r ← findBestDamageSchedule skills gearCombo timeLimit;
  if Qlt_le_dec (topDamage b) (totalDamage r) then
    Done {| topDamage := totalDamage r; topSequence := sequence r;
            bestGear := gearCombo;
            bestGearCost := Some (gear_cost gearCombo) |}
  else if tie (totalDamage r) (topDamage b) then
    let thisCost := gear_cost gearCombo in
    if cheaper thisCost (bestGearCost b) then
      Done {| topDamage := topDamage b; topSequence := sequence r;
              bestGear := gearCombo; bestGearCost := Some thisCost |}
    else Done b
  else Done b.

Definition select (allGearCombos : list (list Q)) : outcome Best :=
  for_each consider allGearCombos start.

(** [topDamage / timeLimit]; a zero [timeLimit] gives NaN or an infinity. *)
Definition dps (topDamage : Q) : option Q :=
  if Qeq_bool timeLimit 0 then None else Some (topDamage / timeLimit).

Definition optimise (allGearCombos : list (list Q)) : outcome Result :=
  b ← select allGearCombos;
  Done {| bestDamage := topDamage b; bestDps := dps (topDamage b);
          chosenGearPercents := bestGear b; castSequence := topSequence b |}.

End Optimiser.

(** The schedule search as the optimiser calls it.  The search hands both
    arrays back unchanged ([dfs_search_frame], [bfs_search_frame]), so the
    loop goes on with the arrays it has. *)
Definition call (search : Args → Q → outcome (ScheduleResult * Args))
    (skills : list Skill) (gearCombo : list Q) (timeLimit : Q)
  : outcome ScheduleResult :=
  fst <$> search {| arg_skills := skills; arg_gearCombo := gearCombo |}
                 timeLimit.

(** [main.ts] *)
Definition findBestDpsSetup (fuel : nat) (skills : list Skill) (timeLimit : Q)
  : outcome Result :=
  optimise (call (Dfs.findBestDamageSchedule fuel)) same_damage skills
    timeLimit (Gear.generateAllGearChoices skills).

(** the queue variant *)
Definition findBestDpsSetup_queue (fuel : nat) (skills : list Skill)
    (timeLimit : Q) : outcome Result :=
  optimise (call (Bfs.findBestDamageSchedule fuel)) same_damage skills
    timeLimit (Gear.generateAllGearChoices skills).

(** [main.cpp] *)
Definition findBestDpsSetup_cpp (fuel : nat) (skills : list Skill)
    (timeLimit : Q) : outcome Result :=
  optimise (call (Dfs.findBestDamageSchedule_cpp fuel)) close_damage skills
    timeLimit (Gear.generateAllGearChoices_cpp skills).

End Setup.

(** ** Schedules as the specification describes them *)

Module Schedule.

(** A point of the timeline: the current time and each action's next
    available time. *)
Record Node := {
  now : Q;
  avail : list Q
}.

(** One cast as it is replayed. *)
Record Cast := {
  who : nat;
  availableAt : Q;
  startTime : Q;
  castEnd : Q
}.

Section Timeline.

Variable skills : list Skill.
Variable cooldown : list (option Q).
Variable timeLimit : Q.

Definition root : Node :=
  {| now := 0; avail := map (fun _ => 0) skills |}.

(** The cast of action [i] at a node: it starts at
    [max(currentTime, nextAvailableTime[i])], ends one cast duration later
    and makes the action available again one effective cooldown after
    that. *)
Definition cast_at (i : nat) (nd : Node) : option (Cast * Node) :=
  skill ← skills !! i;
  a ← avail nd !! i;
  cd ← mjoin (cooldown !! i);
  let startTime := Qmax (now nd) a in
  let castEnd := startTime + castTimeS skill in
  Some ({| who := i; availableAt := a; startTime := startTime;
           castEnd := castEnd |},
        {| now := castEnd; avail := <[i := castEnd + cd]> (avail nd) |}).

(** Replaying a sequence of action indices, with no test of legality. *)
Fixpoint replay (plan : list nat) (nd : Node) : option (list Cast * Node) :=
  match plan with
  | [] => Some ([], nd)
  | i :: rest =>
      '(c, nd') ← cast_at i nd;
      '(cs, nd'') ← replay rest nd';
      Some (c :: cs, nd'')
  end.

(** A cast is legal when it ends by the time limit. *)
Definition legal (c : Cast) : Prop := castEnd c <= timeLimit.

(** The two guards of the searches: the action becomes available by the
    time limit, and the cast ends by the time limit plus the tolerance. *)
Definition accepted (eps : Q) (c : Cast) : Prop :=
  availableAt c <= timeLimit ∧ castEnd c <= timeLimit + eps.

(** No cast starts before its action is available. *)
Definition on_time (c : Cast) : Prop := availableAt c <= startTime c.

Definition feasible_from (ok : Cast → Prop) (plan : list nat) (nd : Node)
  : Prop :=
  ∃ cs nd', replay plan nd = Some (cs, nd') ∧ Forall ok cs.

Definition feasible (ok : Cast → Prop) (plan : list nat) : Prop :=
  feasible_from ok plan root.

Definition damage_of (i : nat) : Q :=
  from_option damage 0 (skills !! i).

(** The sum of the damage values of the casts, added in cast order onto
    [acc]. *)
Definition damage_from (acc : Q) (plan : list nat) : Q :=
  fold_left (fun acc i => acc + damage_of i) plan acc.

Definition plan_damage (plan : list nat) : Q := damage_from 0 plan.

Definition name_of (i : nat) : string :=
  from_option skillName EmptyString (skills !! i).

Definition names (plan : list nat) : list string := map name_of plan.

(** [d] is the greatest damage of a plan whose casts all satisfy [ok]. *)
Definition greatest (ok : Cast → Prop) (d : Q) : Prop :=
  (∃ plan, feasible ok plan ∧ plan_damage plan == d) ∧
  (∀ plan, feasible ok plan → plan_damage plan <= d).

(** The action a name stands for: the first one carrying it. *)
Definition resolve (name : string) : option nat :=
  fst <$> list_find (fun s => skillName s = name) skills.

(** Replaying a returned sequence of names from the root. *)
Definition replay_names (seq : list string) : option (list Cast * Node) :=
  plan ← mapM resolve seq; replay plan root.

Definition damage_of_names (seq : list string) : Q :=
  from_option plan_damage 0 (mapM resolve seq).

End Timeline.

End Schedule.

(** ** What a depth-first call establishes

    The memory of a depth-first call seen as a node of the timeline, and the
    relation between the memory before and after a call made at time
    [currentTime] with [totalDamageSoFar] accumulated. *)

Module DfsSpec.

Definition node (currentTime : Q) (m : Dfs.Mem) : Schedule.Node :=
  {| Schedule.now := currentTime; Schedule.avail := Dfs.nextAvailTimes m |}.

(** The call leaves the caller's arrays and both scratch buffers as they
    were. *)
Definition frame (m m' : Dfs.Mem) : Prop :=
  Dfs.args m' = Dfs.args m
  ∧ Dfs.nextAvailTimes m' = Dfs.nextAvailTimes m
  ∧ Dfs.castSequence m' = Dfs.castSequence m.

Definition unchanged_best (m m' : Dfs.Mem) : Prop :=
  Dfs.bestDamageSoFar m' = Dfs.bestDamageSoFar m
  ∧ Dfs.bestSequenceSoFar m' = Dfs.bestSequenceSoFar m.

Section Post.

Variable skills : list Skill.
Variable cooldown : list (option Q).
Variable timeLimit eps : Q.

(** The arrays a call reads have one entry per skill. *)
Definition well_sized (m : Dfs.Mem) : Prop :=
  arg_skills (Dfs.args m) = skills
  ∧ length (Dfs.nextAvailTimes m) = length skills.

Definition ok : Schedule.Cast → Prop := Schedule.accepted timeLimit eps.

(** The recorded best is the plan [prefix ++ plan] reached through this
    call. *)
Definition best_is (currentTime totalDamageSoFar : Q) (m m' : Dfs.Mem)
    (plan : list nat) : Prop :=
  Schedule.feasible_from skills cooldown ok plan (node currentTime m)
  ∧ Dfs.bestDamageSoFar m'
    = Schedule.damage_from skills totalDamageSoFar plan
  ∧ Dfs.bestSequenceSoFar m'
    = Dfs.castSequence m ++ Schedule.names skills plan.

Definition post (currentTime totalDamageSoFar : Q) (m m' : Dfs.Mem) : Prop :=
  Dfs.bestDamageSoFar m <= Dfs.bestDamageSoFar m'
  ∧ (∀ plan,
        Schedule.feasible_from skills cooldown ok plan (node currentTime m) →
        Schedule.damage_from skills totalDamageSoFar plan
          <= Dfs.bestDamageSoFar m')
  ∧ (unchanged_best m m'
     ∨ ∃ plan, best_is currentTime totalDamageSoFar m m' plan).

End Post.

End DfsSpec.

(** ** What the work queue holds *)

Module BfsSpec.

Definition node (s : Bfs.State) : Schedule.Node :=
  {| Schedule.now := Bfs.currentTime s; Schedule.avail := Bfs.nextAvail s |}.

(** The state generated by casting action [i] from [state]. *)
Definition successor (state : Bfs.State) (i : nat) (skill : Skill) (c : Schedule.Cast)
    (cd : Q) : Bfs.State :=
  {| Bfs.currentTime := Schedule.castEnd c;
     Bfs.damageSoFar := Bfs.damageSoFar state + damage skill;
     Bfs.nextAvail := <[i := Schedule.castEnd c + cd]> (Bfs.nextAvail state);
     Bfs.castSequence := Bfs.castSequence state ++ [skillName skill] |}.

(** What every step of the search keeps: the caller's arrays and the
    recorded best are untouched by an expansion, the counters never go
    down, and the queue only grows at its end. *)
Definition grows (m m' : Bfs.Mem) : Prop :=
  Bfs.args m' = Bfs.args m
  ∧ Bfs.bestDamage m' = Bfs.bestDamage m
  ∧ Bfs.bestSequence m' = Bfs.bestSequence m
  ∧ (Bfs.evictions m ≤ Bfs.evictions m')%nat
  ∧ (Bfs.prunes m ≤ Bfs.prunes m')%nat
  ∧ ∃ added, Bfs.queue m' = Bfs.queue m ++ added.

Section Invariant.

Variable skills : list Skill.
Variable cooldown : list (option Q).
Variable timeLimit : Q.

(** The state is the end of an accepted plan replayed from the root, and
    carries that plan's damage and names. *)
Definition reached (s : Bfs.State) : Prop :=
  ∃ plan cs,
    Schedule.replay skills cooldown plan (Schedule.root skills)
    = Some (cs, node s)
    ∧ Forall (Schedule.accepted timeLimit 0) cs
    ∧ Bfs.damageSoFar s = Schedule.plan_damage skills plan
    ∧ Bfs.castSequence s = Schedule.names skills plan.

(** The recorded best is an accepted plan. *)
Definition best_reached (m : Bfs.Mem) : Prop :=
  ∃ plan,
    Schedule.feasible skills cooldown (Schedule.accepted timeLimit 0) plan
    ∧ Bfs.bestDamage m = Schedule.plan_damage skills plan
    ∧ Bfs.bestSequence m = Schedule.names skills plan.

Definition invariant (m : Bfs.Mem) : Prop :=
  arg_skills (Bfs.args m) = skills
  ∧ Forall reached (Bfs.queue m)
  ∧ best_reached m.

(** The caller's roster is in place and every queued state has one next
    available time per skill. *)
Definition sized (m : Bfs.Mem) : Prop :=
  arg_skills (Bfs.args m) = skills
  ∧ Forall (fun s => length (Bfs.nextAvail s) = length skills) (Bfs.queue m).

(** Nothing was evicted or pruned between [m] and [m']. *)
Definition nothing_dropped (m m' : Bfs.Mem) : Prop :=
  Bfs.evictions m' = Bfs.evictions m ∧ Bfs.prunes m' = Bfs.prunes m.

(** The recorded best bounds every accepted plan that continues a queued
    state. *)
Definition covers_queue (q : list Bfs.State) (m' : Bfs.Mem) : Prop :=
  ∀ s plan,
    s ∈ q →
    Schedule.feasible_from skills cooldown (Schedule.accepted timeLimit 0)
      plan (node s) →
    Schedule.damage_from skills (Bfs.damageSoFar s) plan <= Bfs.bestDamage m'.

(** The budget of a queued state: with [cmin] a lower bound of the cast
    durations, at most [k] further casts fit after a state that is
    [within k]; a state with budget [k] is worth [(n + 1) ^ k] iterations of
    the loop, [n] being the number of skills. *)
Definition within (cmin : Q) (k : nat) (s : Bfs.State) : Prop :=
  length (Bfs.nextAvail s) = length skills
  ∧ timeLimit - Bfs.currentTime s < inject_Z (Z.of_nat k) * cmin.

Definition weight (k : nat) : nat := (S (length skills) ^ k)%nat.

End Invariant.

End BfsSpec.

(** ** Statements of the specification *)

Module Spec.

Definition args_of (skills : list Skill) (gearCombo : list Q) : Args :=
  {| arg_skills := skills; arg_gearCombo := gearCombo |}.

(** The search returns, and what it returns is the greatest damage of a
    plan all of whose casts satisfy [ok]. *)
Definition exact (search : nat → Args → Q → outcome (ScheduleResult * Args))
    (ok : Q → Schedule.Cast → Prop) (a : Args) (timeLimit : Q) : Prop :=
  ∃ fuel r,
    search fuel a timeLimit = Done (r, a)
    ∧ Schedule.greatest (arg_skills a)
        (effectiveRecast (arg_skills a) (arg_gearCombo a))
        (ok timeLimit) (totalDamage r).

(** A returned schedule replays from the root: its names resolve to
    actions, no cast starts before its action is available, every cast ends
    by the time limit within the tolerance, and the returned damage is the
    sum of the damage of its casts. *)
Definition valid_schedule (a : Args) (timeLimit eps : Q) (r : ScheduleResult)
  : Prop :=
  let skills := arg_skills a in
  let cooldown := effectiveRecast (arg_skills a) (arg_gearCombo a) in
  ∃ casts nd,
    Schedule.replay_names skills cooldown (sequence r) = Some (casts, nd)
    ∧ Forall (fun c => Schedule.on_time c
                       ∧ Schedule.castEnd c <= timeLimit + eps) casts
    ∧ totalDamage r == Schedule.damage_of_names skills (sequence r).

(** Action names are unique. *)
Definition unique_names (skills : list Skill) : Prop :=
  NoDup (map skillName skills).

(** The same, said of the actions behind the names: [plan] is a sequence
    of action indices that carries the returned names, replays from the
    root with every cast on time and within the limit, and sums to the
    returned damage. *)
Definition replays_as (a : Args) (timeLimit eps : Q) (r : ScheduleResult)
    (plan : list nat) : Prop :=
  let skills := arg_skills a in
  let cooldown := effectiveRecast (arg_skills a) (arg_gearCombo a) in
  Schedule.names skills plan = sequence r
  ∧ totalDamage r == Schedule.plan_damage skills plan
  ∧ ∃ casts nd,
      Schedule.replay skills cooldown plan (Schedule.root skills)
      = Some (casts, nd)
      ∧ Forall (fun c => Schedule.on_time c
                         ∧ Schedule.castEnd c <= timeLimit + eps) casts.

(** A returned schedule stands for a sequence of actions that replays
    well; when names identify actions, that sequence is the one the names
    resolve to. *)
Definition sound_schedule (a : Args) (timeLimit eps : Q) (r : ScheduleResult)
  : Prop :=
  (∃ plan, replays_as a timeLimit eps r plan)
  ∧ (unique_names (arg_skills a) → valid_schedule a timeLimit eps r).

(** Every cast duration is strictly positive. *)
Definition positive_durations (skills : list Skill) : Prop :=
  Forall (fun skill => 0 < castTimeS skill) skills.

(** The assignment has a modifier for every action. *)
Definition covers (gearCombo : list Q) (skills : list Skill) : Prop :=
  (length skills ≤ length gearCombo)%nat.

(** Every effective cooldown is a number and is not negative. *)
Definition nonnegative_cooldowns (a : Args) : Prop :=
  Forall (fun o => ∃ cd : Q, o = Some cd ∧ 0 <= cd)
    (effectiveRecast (arg_skills a) (arg_gearCombo a)).

(** The validation failures the specification lists. *)
Definition invalid_skill (skill : Skill) : Prop :=
  castTimeS skill < 0 ∨ recastTimeS skill < 0 ∨ damage skill < 0
  ∨ possibleSkillGear skill = []
  ∨ Exists (fun pct => 100 <= pct) (possibleSkillGear skill).

Definition invalid_input (skills : list Skill) (timeLimit : Q) : Prop :=
  timeLimit <= 0 ∨ Exists invalid_skill skills.

(** The run gives no result. *)
Definition rejects {A} (o : outcome A) : Prop := ∀ x, o ≠ Done x.

(** The result a caller sees when nothing was selected. *)
Definition nothing (timeLimit : Q) : Setup.Result :=
  {| Setup.bestDamage := 0; Setup.bestDps := Setup.dps timeLimit 0;
     Setup.chosenGearPercents := []; Setup.castSequence := [] |}.

(** [b] is a proper selection among the assignments [seen]: its gear is
    one of them, the recorded damage, sequence and cost are that gear's, no
    assignment seen has more damage, and none with the same damage costs
    less. *)
Definition selected
    (search : list Skill → list Q → Q → outcome ScheduleResult)
    (skills : list Skill) (timeLimit : Q)
    (seen : list (list Q)) (b : Setup.Best) : Prop :=
  ∃ r,
    Setup.bestGear b ∈ seen
    ∧ search skills (Setup.bestGear b) timeLimit = Done r
    ∧ totalDamage r == Setup.topDamage b
    ∧ sequence r = Setup.topSequence b
    ∧ Setup.bestGearCost b = Some (Setup.gear_cost (Setup.bestGear b))
    ∧ ∀ g r', g ∈ seen → search skills g timeLimit = Done r' →
        totalDamage r' <= Setup.topDamage b
        ∧ (totalDamage r' == Setup.topDamage b →
           Setup.gear_cost (Setup.bestGear b) <= Setup.gear_cost g).

(** The selection rule of the specification, for a pair of enumerated
    assignments and the assignment finally chosen: of two assignments the
    one with strictly less damage is not chosen, and of two with equal
    damage the one with the strictly greater summed modifier is not
    chosen. *)
Definition tie_break_rule
    (search : list Skill → list Q → Q → outcome ScheduleResult)
    (skills : list Skill) (timeLimit : Q)
    (combos : list (list Q)) (chosen : list Q) : Prop :=
  ∀ g1 g2 r1 r2,
    g1 ∈ combos → g2 ∈ combos →
    search skills g1 timeLimit = Done r1 →
    search skills g2 timeLimit = Done r2 →
    (totalDamage r1 < totalDamage r2 → chosen ≠ g1)
    ∧ (totalDamage r1 == totalDamage r2 →
       Setup.gear_cost g1 < Setup.gear_cost g2 → chosen ≠ g2).

End Spec.

(** ** Concrete inputs *)

Module Inputs.

(** Scenario A of the specification. *)
Definition scenarioA : list Skill :=
  [ {| skillName := "A"; castTimeS := 1; recastTimeS := 5; damage := 10;
       possibleSkillGear := [0] |} ].

(** One action that takes no time and has no cooldown. *)
Definition instant : list Skill :=
  [ {| skillName := "Z"; castTimeS := 0; recastTimeS := 0; damage := 1;
       possibleSkillGear := [0] |} ].

(** One action whose second cast fits the window of 8 only with the 50%
    modifier; its damage is below the tolerance of [main.cpp]. *)
Definition near_tie : list Skill :=
  [ {| skillName := "B"; castTimeS := 1; recastTimeS := 10;
       damage := 1 # 10000000000; possibleSkillGear := [1; 50; 5] |} ].

(** One action whose single cast ends half a tolerance after the time
    limit 1. *)
Definition overhang : list Skill :=
  [ {| skillName := "C"; castTimeS := 1 + (5 # 10000000000);
       recastTimeS := 10; damage := 7; possibleSkillGear := [0] |} ].

(** One action that, after one cast, is available again a fifth of a
    tolerance after the time limit 1, for a cast that short. *)
Definition late_ready : list Skill :=
  [ {| skillName := "D"; castTimeS := 2 # 10000000000; recastTimeS := 1;
       damage := 7; possibleSkillGear := [0] |} ].

(** One action with no modifier option at all. *)
Definition no_options : list Skill :=
  [ {| skillName := "E"; castTimeS := 1; recastTimeS := 1; damage := 7;
       possibleSkillGear := [] |} ].

End Inputs.

(** ** Further notions used in the properties of the searches *)

Module More.

(** A recorded best is either positive, or still the initial one. *)
Definition positive_or_initial (best : Q) (seq : list string) : Prop :=
  0 < best ∨ (best = 0 ∧ seq = []).

(** The outcome is not [Undefined], and a final memory keeps [Inv]. *)
Definition defined {M} (Inv : M → Prop) (o : outcome M) : Prop :=
  match o with
  | Done m => Inv m
  | OutOfFuel => True
  | Undefined => False
  end.

(** The order in which the depth-first search visits plans: a plan comes
    before its extensions, and before every plan that first differs from it
    by a later action. *)
Fixpoint before (p q : list nat) : Prop :=
  match p, q with
  | [], [] => False
  | [], _ :: _ => True
  | _ :: _, [] => False
  | i :: p', j :: q' => (i < j)%nat ∨ (i = j ∧ before p' q')
  end.

(** [nd'] is nowhere later than [nd]: its clock and every next available
    time. *)
Definition earlier (nd' nd : Schedule.Node) : Prop :=
  Schedule.now nd' <= Schedule.now nd
  ∧ Forall2 Qle (Schedule.avail nd') (Schedule.avail nd).

(** Every cooldown of [cd'] is a number and is at most the one of [cd]. *)
Definition cooler (cd' cd : list (option Q)) : Prop :=
  Forall2 (fun o' o => ∃ x' x : Q, o' = Some x' ∧ o = Some x ∧ x' <= x) cd' cd.

(** Every checkpoint keeps at most [K] states, each in its own bucket. *)
Definition heaps_bounded (K : nat) (m : Bfs.Mem) : Prop :=
  ∀ cp h, Bfs.topStatesPerCheckpoint m !! cp = Some h →
    (Bfs.Heap.size h ≤ K)%nat
    ∧ Forall (fun s => Bfs.checkpoint_of (Bfs.currentTime s) = cp) h.

(** Two damages are either equal or at least the tolerance apart. *)
Definition apart (x y : Q) : Prop := x == y ∨ Dfs.EPS <= Qabs (x - y).

(** No two enumerated assignments have damages that differ by less than
    the tolerance without being equal. *)
Definition separated
    (search : list Skill → list Q → Q → outcome ScheduleResult)
    (skills : list Skill) (timeLimit : Q) (combos : list (list Q)) : Prop :=
  ∀ g1 g2 r1 r2, g1 ∈ combos → g2 ∈ combos →
    search skills g1 timeLimit = Done r1 →
    search skills g2 timeLimit = Done r2 →
    apart (totalDamage r1) (totalDamage r2).

(** The reported damage and sequence are those of the chosen assignment,
    which is one of the enumerated ones, and no enumerated assignment has
    more damage. *)
Definition coherent
    (search : list Skill → list Q → Q → outcome ScheduleResult)
    (skills : list Skill) (timeLimit : Q) (combos : list (list Q))
    (res : Setup.Result) : Prop :=
  ∃ r,
    Setup.chosenGearPercents res ∈ combos
    ∧ search skills (Setup.chosenGearPercents res) timeLimit = Done r
    ∧ totalDamage r == Setup.bestDamage res
    ∧ sequence r = Setup.castSequence res
    ∧ ∀ g r', g ∈ combos → search skills g timeLimit = Done r' →
        totalDamage r' <= Setup.bestDamage res.

End More.

(** ** The first of the best plans *)

Module First.

Section Plans.

Variable skills : list Skill.
Variable cooldown : list (option Q).
Variable ok : Schedule.Cast → Prop.

(** From the node [nd] with [tot] accumulated, [p] is accepted and every
    accepted plan visited before it has strictly less damage. *)
Definition leads_from (nd : Schedule.Node) (tot : Q) (p : list nat) : Prop :=
  Schedule.feasible_from skills cooldown ok p nd
  ∧ ∀ q, Schedule.feasible_from skills cooldown ok q nd →
         More.before q p →
         Schedule.damage_from skills tot q < Schedule.damage_from skills tot p.

(** [p] is an accepted plan of greatest damage, and the first such plan in
    the order of the search. *)
Definition first_greatest (p : list nat) : Prop :=
  Schedule.feasible skills cooldown ok p
  ∧ ∀ q, Schedule.feasible skills cooldown ok q →
         Schedule.plan_damage skills q <= Schedule.plan_damage skills p
         ∧ (More.before q p →
            Schedule.plan_damage skills q < Schedule.plan_damage skills p).

End Plans.

(** What a depth-first call does to the recorded best: nothing, or it
    records a plan that beats the previous best and leads from the node of
    the call. *)
Definition records (skills : list Skill) (cooldown : list (option Q))
    (timeLimit eps : Q) (cur tot : Q) (m m' : Dfs.Mem) : Prop :=
  DfsSpec.unchanged_best m m'
  ∨ ∃ p,
      DfsSpec.best_is skills cooldown timeLimit eps cur tot m m' p
      ∧ Dfs.bestDamageSoFar m < Schedule.damage_from skills tot p
      ∧ leads_from skills cooldown (Schedule.accepted timeLimit eps)
          (DfsSpec.node cur m) tot p.

End First.

(** ** Casts in time *)

Module Timing.

(** [c'] is cast after [c]: it starts when [c] has ended, and if it is a
    cast of the same action, when that action's effective cooldown has
    passed as well. *)
Definition follows (cooldown : list (option Q)) (c c' : Schedule.Cast)
  : Prop :=
  Schedule.castEnd c <= Schedule.startTime c'
  ∧ (Schedule.who c = Schedule.who c' →
     ∀ cd, cooldown !! Schedule.who c = Some (Some cd) →
           Schedule.castEnd c + cd <= Schedule.startTime c').

(** Every cast of the list follows every cast before it. *)
Definition in_order (cooldown : list (option Q)) (cs : list Schedule.Cast)
  : Prop :=
  ForallOrdPairs (follows cooldown) cs.

(** Durations and cooldowns are not negative. *)
Definition forward (skills : list Skill) (cooldown : list (option Q)) : Prop :=
  Forall (fun skill => 0 <= castTimeS skill) skills
  ∧ Forall (fun o => ∀ cd : Q, o = Some cd → 0 <= cd) cooldown.

(** A result is timed well when the actions behind its names replay, from
    the root, as casts in order. *)
Definition timed (a : Args) (r : ScheduleResult) : Prop :=
  let skills := arg_skills a in
  let cooldown := effectiveRecast (arg_skills a) (arg_gearCombo a) in
  ∃ plan casts nd,
    Schedule.names skills plan = sequence r
    ∧ Schedule.replay skills cooldown plan (Schedule.root skills)
      = Some (casts, nd)
    ∧ in_order cooldown casts.

End Timing.

(** * Properties *)

(** ** The gear enumeration *)

Section GearFacts.
Import Gear.

Lemma array_set_length index v (cur : list Q) :
  (index ≤ length cur)%nat →
  length (array_set index v cur) = (length cur `max` S index)%nat.
Proof.
  intros Hle. unfold array_set.
  rewrite length_app, length_take. simpl. rewrite length_drop. lia.
Qed.

Lemma array_set_take index v (cur : list Q) :
  (index ≤ length cur)%nat →
  take (S index) (array_set index v cur) = take index cur ++ [v].
Proof.
  intros Hle. unfold array_set.
  rewrite take_app_ge; rewrite length_take; [|lia].
  replace (S index - index `min` length cur)%nat with 1%nat by lia.
  reflexivity.
Qed.

Lemma take_take_S {A} (l1 l2 : list A) n :
  take (S n) l1 = take (S n) l2 → take n l1 = take n l2.
Proof.
  intros H.
  replace n with (n `min` S n)%nat by lia.
  rewrite <- !take_take. by rewrite H.
Qed.

(** What one call of [backtrack] appends to [results]: the combinations of
    the remaining option lists, each behind the first [index] entries of
    [current]. *)
Lemma backtrack_spec rest : ∀ index m,
  (index ≤ length (current m))%nat →
  (length (current m) ≤ index + length rest)%nat →
  results (backtrack rest index m)
    = results m ++ map (app (take index (current m))) (cartesian rest)
  ∧ take index (current (backtrack rest index m)) = take index (current m)
  ∧ (index ≤ length (current (backtrack rest index m)))%nat
  ∧ (length (current (backtrack rest index m)) ≤ index + length rest)%nat.
Proof.
  induction rest as [|gears rest IH]; intros index m Hlo Hhi.
  - simpl in *. rewrite app_nil_r, take_ge by lia. repeat split; lia.
  - simpl backtrack. simpl length in *.
    revert m Hlo Hhi. induction gears as [|x gears IHg]; intros m Hlo Hhi.
    + simpl. rewrite app_nil_r. repeat split; lia.
    + simpl fold_left.
      set (m1 := {| current := array_set index x (current m);
                    results := results m |}).
      assert (Hlen1 : length (current m1)
                      = (length (current m) `max` S index)%nat)
        by (apply array_set_length; lia).
      destruct (IH (S index) m1) as (Hres & Htake & Hlo' & Hhi');
        [lia | lia |].
      destruct (IHg (backtrack rest (S index) m1)) as (Hres2 & Ht2 & Hl2 & Hh2);
        [lia | lia |].
      assert (Hprefix : take index (current (backtrack rest (S index) m1))
                        = take index (current m)).
      { apply take_take_S in Htake. rewrite Htake. subst m1. simpl.
        unfold array_set. rewrite take_app_le by (rewrite length_take; lia).
        rewrite take_take. f_equal. lia. }
      split; [|split; [|split]]; [| congruence | lia | lia].
      rewrite Hres2, Hres, Hprefix. subst m1. simpl.
      rewrite array_set_take by lia.
      rewrite <- app_assoc. f_equal.
      rewrite map_app. f_equal.
      rewrite !map_map. apply map_ext. intros c.
      by rewrite <- app_assoc.
Qed.

Lemma cartesian_length options :
  length (cartesian options) = product_of_sizes options.
Proof.
  induction options as [|opts rest IH]; [reflexivity|].
  simpl. rewrite <- IH. clear IH.
  induction opts as [|x opts IHo]; [reflexivity|].
  simpl. rewrite length_app, length_map. unfold mbind in IHo. rewrite IHo. lia.
Qed.

(** Membership in the product: one option of each list, position by
    position. *)
Lemma cartesian_elem options : ∀ combo,
  combo ∈ cartesian options ↔ Forall2 (fun x opts => x ∈ opts) combo options.
Proof.
  induction options as [|opts rest IH]; intros combo; simpl.
  - rewrite list_elem_of_singleton. split.
    + intros ->. constructor.
    + by inversion 1.
  - rewrite list_elem_of_bind. split.
    + intros (x & Hin & Hx). apply list_elem_of_fmap in Hin as (c & -> & Hc).
      constructor; [done|]. by apply IH.
    + inversion 1 as [|x ? c ? Hx Hc]; subst. exists x. split; [|done].
      apply list_elem_of_fmap. exists c. split; [done|]. by apply IH.
Qed.

End GearFacts.

(** Both enumerations are the product. *)
Lemma gear_choices_eq (skills : list Skill) :
  Gear.generateAllGearChoices skills
    = Gear.cartesian (map possibleSkillGear skills)
  ∧ Gear.generateAllGearChoices_cpp skills
    = Gear.cartesian (map possibleSkillGear skills).
Proof.
  split.
  - unfold Gear.generateAllGearChoices.
    destruct (backtrack_spec (map possibleSkillGear skills) 0
                {| Gear.current := []; Gear.results := [] |}) as (H & _);
      simpl; [lia | lia |].
    rewrite H. simpl. apply map_id.
  - unfold Gear.generateAllGearChoices_cpp.
    destruct (backtrack_spec (map possibleSkillGear skills) 0
                {| Gear.current := replicate (length skills) 0;
                   Gear.results := [] |}) as (H & _); simpl.
    + lia.
    + rewrite length_replicate, length_map. lia.
    + rewrite H. simpl. apply map_id.
Qed.

(** C4: for every roster, [generateAllGearChoices] returns exactly the
    Cartesian product of the actions' modifier-option lists, in the order
    that varies the first action slowest and follows each action's own
    option order; it holds one assignment per combination of options, and
    its length is the product of the option counts.  The C++ variant, which
    starts from a zero-filled buffer, returns the same list. *)
Theorem generateAllGearChoices_cartesian (skills : list Skill) :
  Gear.generateAllGearChoices skills
    = Gear.cartesian (map possibleSkillGear skills)
  ∧ Gear.generateAllGearChoices_cpp skills
    = Gear.cartesian (map possibleSkillGear skills)
  ∧ length (Gear.generateAllGearChoices skills)
    = Gear.product_of_sizes (map possibleSkillGear skills)
  ∧ ∀ combo, combo ∈ Gear.generateAllGearChoices skills
             ↔ Forall2 (fun x skill => x ∈ possibleSkillGear skill)
                 combo skills.
Proof.
  destruct (gear_choices_eq skills) as [Hts Hcpp].
  split_and!; [done | done | |].
  - rewrite Hts. apply cartesian_length.
  - intros combo. rewrite Hts, cartesian_elem. apply Forall2_fmap_r.
Qed.

(** ** Generic facts: outcomes, loops, timelines *)

Lemma bind_Done {A B} (f : A → outcome B) (o : outcome A) (b : B) :
  o ≫= f = Done b ↔ ∃ a, o = Done a ∧ f a = Done b.
Proof.
  destruct o as [a| |]; simpl; split.
  - eauto.
  - by intros (a' & [= ->] & Hf).
  - done.
  - by intros (a' & Ha & _).
  - done.
  - by intros (a' & Ha & _).
Qed.

Lemma read_Done {A} (arr : list A) i x : read arr i = Done x ↔ arr !! i = Some x.
Proof. unfold read. destruct (arr !! i); split; congruence. Qed.

Lemma read_number_Done arr i x :
  read_number arr i = Done x ↔ arr !! i = Some (Some x).
Proof.
  unfold read_number. destruct (arr !! i) as [[?|]|]; split; congruence.
Qed.

(** A reflexive, transitive relation kept by every iteration is kept by the
    loop. *)
Lemma for_each_preserves {A M} (R : M → M → Prop) (body : A → M → outcome M) :
  (∀ m, R m m) → (∀ m1 m2 m3, R m1 m2 → R m2 m3 → R m1 m3) →
  ∀ xs m m',
    (∀ x m1 m2, x ∈ xs → body x m1 = Done m2 → R m1 m2) →
    for_each body xs m = Done m' → R m m'.
Proof.
  intros Hrefl Htrans xs. induction xs as [|x xs IH]; intros m m' Hbody Hrun.
  - simpl in Hrun. injection Hrun as <-. apply Hrefl.
  - simpl in Hrun. apply bind_Done in Hrun as (m1 & H1 & H2).
    eapply Htrans.
    + eapply Hbody; [left | exact H1].
    + apply IH; [|exact H2]. intros. eapply Hbody; [by right | done].
Qed.

Section TimelineFacts.
Import Schedule.

Variable skills : list Skill.
Variable cooldown : list (option Q).

Lemma feasible_from_nil (ok : Cast → Prop) nd :
  feasible_from skills cooldown ok [] nd.
Proof. exists [], nd. split; [done | constructor]. Qed.

Lemma feasible_from_cons (ok : Cast → Prop) i plan nd :
  feasible_from skills cooldown ok (i :: plan) nd
  ↔ ∃ c nd', cast_at skills cooldown i nd = Some (c, nd') ∧ ok c
             ∧ feasible_from skills cooldown ok plan nd'.
Proof.
  unfold feasible_from. simpl. split.
  - intros (cs & nd'' & Hrun & Hok).
    destruct (cast_at skills cooldown i nd) as [[c nd']|]; [|done].
    simpl in Hrun.
    destruct (replay skills cooldown plan nd') as [[cs' nd3]|] eqn:Hr; [|done].
    simpl in Hrun. injection Hrun as <- <-.
    inversion Hok; subst. exists c, nd'. split_and!; [done | done |].
    exists cs', nd3. done.
  - intros (c & nd' & -> & Hc & cs & nd'' & Hrun & Hcs). simpl.
    rewrite Hrun. simpl.
    exists (c :: cs), nd''. split; [done | by constructor].
Qed.

Lemma cast_at_index i nd c nd' :
  cast_at skills cooldown i nd = Some (c, nd') → (i < length skills)%nat.
Proof.
  unfold cast_at. destruct (skills !! i) eqn:E; [|done].
  intros _. by eapply lookup_lt_Some.
Qed.

End TimelineFacts.

(** ** The depth-first search *)

Section DfsFacts.
Import Schedule DfsSpec.

Variable eps timeLimit : Q.
Variable cooldown : list (option Q).

Local Abbreviation try_cast := (Dfs.try_cast eps timeLimit cooldown).
Local Abbreviation dfs := (Dfs.dfs eps timeLimit cooldown).

(** The two ways an iteration of the loop can finish: the cast is skipped,
    or it is made, searched below, and undone. *)
Lemma try_cast_inv rec cur tot i m m' :
  try_cast rec cur tot i m = Done m' →
  (m' = m ∧
   ∀ c nd', cast_at (arg_skills (Dfs.args m)) cooldown i (node cur m)
              = Some (c, nd') → ¬ accepted timeLimit eps c)
  ∨ ∃ skill c cd m2,
      let m_in := Dfs.enter i (castEnd c + cd) (skillName skill) m in
      arg_skills (Dfs.args m) !! i = Some skill
      ∧ Dfs.nextAvailTimes m !! i = Some (availableAt c)
      ∧ cast_at (arg_skills (Dfs.args m)) cooldown i (node cur m)
          = Some (c, node (castEnd c) m_in)
      ∧ accepted timeLimit eps c
      ∧ rec (castEnd c) (tot + damage skill) m_in = Done m2
      ∧ m' = Dfs.leave i (availableAt c) m2.
Proof.
  unfold Dfs.try_cast. intros H.
  apply bind_Done in H as (skill & Hs & H). apply read_Done in Hs.
  apply bind_Done in H as (a & Ha & H). apply read_Done in Ha.
  unfold cast_at, node. simpl. rewrite Hs, Ha. simpl.
  destruct (Qlt_le_dec timeLimit a) as [Hlate|Hav].
  { left. injection H as <-. split; [done|].
    intros c nd'. destruct (mjoin (cooldown !! i)); [|done]. simpl.
    intros [= <- <-] [Hc _]. simpl in Hc. lra. }
  destruct (Qlt_le_dec (timeLimit + eps) (Qmax cur a + castTimeS skill))
    as [Hlong|Hfit].
  { left. injection H as <-. split; [done|].
    intros c nd'. destruct (mjoin (cooldown !! i)); [|done]. simpl.
    intros [= <- <-] [_ Hc]. simpl in Hc. lra. }
  right.
  apply bind_Done in H as (old & Hold & H). apply read_Done in Hold.
  assert (old = a) as -> by congruence.
  apply bind_Done in H as (cd & Hcd & H). apply read_number_Done in Hcd.
  apply bind_Done in H as (m2 & Hrec & H). injection H as <-.
  rewrite Hcd. simpl.
  exists skill,
    {| who := i; availableAt := a; startTime := Qmax cur a;
       castEnd := Qmax cur a + castTimeS skill |}, cd, m2.
  simpl. split_and!; try done.
Qed.

Lemma frame_refl m : frame m m.
Proof. by repeat split. Qed.

Lemma frame_trans m1 m2 m3 : frame m1 m2 → frame m2 m3 → frame m1 m3.
Proof.
  intros (? & ? & ?) (? & ? & ?). repeat split; etransitivity; eauto.
Qed.

(** Undoing a cast restores both buffers. *)
Lemma leave_enter_frame i a v name m m2 :
  Dfs.nextAvailTimes m !! i = Some a →
  frame (Dfs.enter i v name m) m2 →
  frame m (Dfs.leave i a m2).
Proof.
  intros Ha (Hargs & Hna & Hcs). unfold frame. simpl in *.
  rewrite Hargs, Hna, Hcs. split_and!.
  - done.
  - rewrite list_insert_insert_eq. by apply list_insert_id.
  - apply removelast_last.
Qed.

(** Undo on backtrack: a call of [dfs] returns with the caller's arrays,
    [nextAvailTimes] and [castSequence] exactly as it found them. *)
Lemma dfs_frame fuel : ∀ cur tot m m',
  dfs fuel cur tot m = Done m' → frame m m'.
Proof.
  induction fuel as [|fuel IH]; intros cur tot m m' Hrun; [done|].
  simpl in Hrun.
  set (m1 := if Qlt_le_dec (Dfs.bestDamageSoFar m) tot
             then Dfs.record_best tot m else m) in *.
  assert (Hm1 : frame m m1).
  { subst m1. destruct (Qlt_le_dec _ _); by repeat split. }
  eapply frame_trans; [exact Hm1|].
  eapply (for_each_preserves frame); [apply frame_refl | apply frame_trans | | exact Hrun].
  intros i ma mb _ Hbody.
  apply try_cast_inv in Hbody
    as [[-> _]|(skill & c & cd & m2 & Hs & Ha & _ & _ & Hrec & ->)].
  - apply frame_refl.
  - eapply leave_enter_frame; [exact Ha|]. eapply IH, Hrec.
Qed.

(** *** Soundness and completeness of one call *)

Variable skills : list Skill.

Local Abbreviation post := (post skills cooldown timeLimit eps).
Local Abbreviation best_is := (best_is skills cooldown timeLimit eps).
Local Abbreviation feasible_from :=
  (feasible_from skills cooldown (accepted timeLimit eps)).

Lemma damage_from_cons tot i plan skill :
  skills !! i = Some skill →
  damage_from skills tot (i :: plan)
  = damage_from skills (tot + damage skill) plan.
Proof. intros Hs. unfold damage_from, damage_of. simpl. by rewrite Hs. Qed.

Lemma names_cons i plan skill :
  skills !! i = Some skill →
  names skills (i :: plan) = skillName skill :: names skills plan.
Proof. intros Hs. unfold names, name_of. simpl. by rewrite Hs. Qed.

(** The loop over the skills, given that the recursive calls behave. *)
Lemma dfs_loop_post (rec : Q → Q → Dfs.Mem → outcome Dfs.Mem) cur tot :
  (∀ cur' tot' m m', arg_skills (Dfs.args m) = skills →
     rec cur' tot' m = Done m' → frame m m' ∧ post cur' tot' m m') →
  ∀ idx m m',
    arg_skills (Dfs.args m) = skills →
    for_each (try_cast rec cur tot) idx m = Done m' →
    frame m m'
    ∧ Dfs.bestDamageSoFar m <= Dfs.bestDamageSoFar m'
    ∧ (∀ i plan, i ∈ idx → feasible_from (i :: plan) (node cur m) →
         damage_from skills tot (i :: plan) <= Dfs.bestDamageSoFar m')
    ∧ (unchanged_best m m' ∨ ∃ plan, best_is cur tot m m' plan).
Proof.
  intros Hrec idx. induction idx as [|i idx IH]; intros m m' Hsk Hrun.
  { simpl in Hrun. injection Hrun as <-. split_and!.
    - apply frame_refl.
    - lra.
    - intros i plan Hi. by apply elem_of_nil in Hi.
    - by left. }
  simpl in Hrun. apply bind_Done in Hrun as (m1 & Hbody & Hrest).
  apply try_cast_inv in Hbody
    as [[-> Hrej]|(skill & c & cd & m2 & Hs & Ha & Hcast & Hok & Hcall & ->)].
  - (* the cast is skipped *)
    destruct (IH m m' Hsk Hrest) as (Hfr & Hmono & Hcov & Hbest).
    split_and!; try done.
    intros j plan Hj Hfeas. apply elem_of_cons in Hj as [->|Hj].
    + apply feasible_from_cons in Hfeas as (c & nd' & Hc & Hokc & _).
      rewrite Hsk in Hrej. by destruct (Hrej c nd' Hc).
    + by apply Hcov.
  - (* the cast is made, searched below and undone *)
    simpl in Hcall. rewrite Hsk in Hs, Hcast.
    set (m_in := Dfs.enter i (castEnd c + cd) (skillName skill) m) in *.
    destruct (Hrec _ _ m_in m2 Hsk Hcall)
      as (Hfr2 & Hmono2 & Hcov2 & Hbest2).
    set (m1 := Dfs.leave i (availableAt c) m2) in *.
    assert (Hfr1 : frame m m1) by (eapply leave_enter_frame; eauto).
    assert (Hsk1 : arg_skills (Dfs.args m1) = skills)
      by (destruct Hfr1 as (-> & _); done).
    assert (Hnode : node cur m1 = node cur m)
      by (unfold node; destruct Hfr1 as (_ & -> & _); done).
    destruct (IH m1 m' Hsk1 Hrest) as (Hfr & Hmono & Hcov & Hbest).
    change (Dfs.bestDamageSoFar m1) with (Dfs.bestDamageSoFar m2) in *.
    change (Dfs.bestDamageSoFar m_in) with (Dfs.bestDamageSoFar m) in *.
    split_and!.
    + eapply frame_trans; eauto.
    + lra.
    + intros j plan Hj Hfeas. apply elem_of_cons in Hj as [->|Hj].
      * apply feasible_from_cons in Hfeas as (c' & nd' & Hc' & _ & Hplan).
        rewrite Hcast in Hc'. injection Hc' as <- <-.
        rewrite (damage_from_cons _ _ _ _ Hs).
        specialize (Hcov2 plan Hplan). lra.
      * apply Hcov; [done|]. by rewrite Hnode.
    + destruct Hbest as [[Hd Hq]|(plan & Hfeas & Hd & Hq)].
      * change (Dfs.bestSequenceSoFar m1) with (Dfs.bestSequenceSoFar m2) in Hq.
        change (Dfs.bestDamageSoFar m1) with (Dfs.bestDamageSoFar m2) in Hd.
        destruct Hbest2 as [[Hd2 Hq2]|(plan & Hfeas & Hd2 & Hq2)].
        -- left.
           change (Dfs.bestSequenceSoFar m_in)
             with (Dfs.bestSequenceSoFar m) in Hq2.
           change (Dfs.bestDamageSoFar m_in) with (Dfs.bestDamageSoFar m) in Hd2.
           split; congruence.
        -- right. exists (i :: plan). split_and!.
           ++ apply feasible_from_cons. exists c, (node (castEnd c) m_in). done.
           ++ rewrite (damage_from_cons _ _ _ _ Hs). congruence.
           ++ rewrite (names_cons _ _ _ Hs), Hq, Hq2. subst m_in. simpl.
              by rewrite <- app_assoc.
      * right. exists plan. split_and!.
        -- by rewrite <- Hnode.
        -- done.
        -- rewrite Hq. by destruct Hfr1 as (_ & _ & ->).
Qed.

(** A call of [dfs] at a node of the timeline: the recorded best never
    decreases, it bounds the damage of every plan the guards accept from
    this node, and if it changed it is such a plan, recorded with its
    names. *)
Lemma dfs_post fuel : ∀ cur tot m m',
  arg_skills (Dfs.args m) = skills →
  dfs fuel cur tot m = Done m' → post cur tot m m'.
Proof.
  induction fuel as [|fuel IH]; intros cur tot m m' Hsk Hrun; [done|].
  simpl in Hrun.
  set (m1 := if Qlt_le_dec (Dfs.bestDamageSoFar m) tot
             then Dfs.record_best tot m else m) in *.
  assert (Hsk1 : arg_skills (Dfs.args m1) = skills).
  { subst m1. by destruct (Qlt_le_dec _ _). }
  assert (Hnode : node cur m1 = node cur m).
  { subst m1. by destruct (Qlt_le_dec _ _). }
  assert (Hcs : Dfs.castSequence m1 = Dfs.castSequence m).
  { subst m1. by destruct (Qlt_le_dec _ _). }
  assert (Htot : tot <= Dfs.bestDamageSoFar m1
                 ∧ Dfs.bestDamageSoFar m <= Dfs.bestDamageSoFar m1).
  { subst m1. destruct (Qlt_le_dec _ _); simpl; lra. }
  destruct (dfs_loop_post (dfs fuel) cur tot) with
    (idx := seq 0 (length (arg_skills (Dfs.args m1)))) (m := m1) (m' := m')
    as (_ & Hmono & Hcov & Hbest); [| done | done |].
  { intros cur' tot' ma mb Ha Hb. split; [by eapply dfs_frame | by eapply IH]. }
  unfold DfsSpec.post. split_and!.
  - lra.
  - intros [|i plan] Hfeas.
    + unfold damage_from. simpl. lra.
    + apply Hcov; [|by rewrite Hnode].
      apply feasible_from_cons in Hfeas as (c & nd' & Hc & _).
      apply cast_at_index in Hc. rewrite Hsk1.
      apply elem_of_seq. lia.
  - destruct Hbest as [[Hd Hq]|(plan & Hfeas & Hd & Hq)].
    + subst m1. destruct (Qlt_le_dec (Dfs.bestDamageSoFar m) tot).
      * right. exists []. split_and!.
        -- apply feasible_from_nil.
        -- by rewrite Hd.
        -- rewrite Hq. simpl. by rewrite app_nil_r.
      * by left.
    + right. exists plan. split_and!.
      * by rewrite <- Hnode.
      * done.
      * by rewrite Hq, Hcs.
Qed.

(** *** Fuel *)

Lemma for_each_mono {A M} (body body' : A → M → outcome M) xs : ∀ m m',
  (∀ x m1 m2, body x m1 = Done m2 → body' x m1 = Done m2) →
  for_each body xs m = Done m' → for_each body' xs m = Done m'.
Proof.
  induction xs as [|x xs IH]; intros m m' Hb Hrun; [done|].
  simpl in *. apply bind_Done in Hrun as (m1 & H1 & H2).
  rewrite (Hb _ _ _ H1). simpl. by apply IH.
Qed.

Lemma try_cast_mono (rec rec' : Q → Q → Dfs.Mem → outcome Dfs.Mem)
    cur tot i m m' :
  (∀ c t m1 m2, rec c t m1 = Done m2 → rec' c t m1 = Done m2) →
  try_cast rec cur tot i m = Done m' → try_cast rec' cur tot i m = Done m'.
Proof.
  intros Hrec. unfold Dfs.try_cast.
  destruct (read (arg_skills (Dfs.args m)) i) as [skill| |]; [|done|done].
  simpl. destruct (read (Dfs.nextAvailTimes m) i) as [a| |]; [|done|done].
  simpl. destruct (Qlt_le_dec timeLimit a); [done|].
  destruct (Qlt_le_dec _ _); [done|].
  destruct (read_number cooldown i) as [cd| |]; [|done|done]. simpl.
  intros H. apply bind_Done in H as (m2 & H1 & H2).
  by rewrite (Hrec _ _ _ _ H1).
Qed.

(** More fuel does not change a result. *)
Lemma dfs_fuel_S fuel : ∀ cur tot m m',
  dfs fuel cur tot m = Done m' → dfs (S fuel) cur tot m = Done m'.
Proof.
  induction fuel as [|fuel IH]; intros cur tot m m' Hrun; [done|].
  remember (S fuel) as k. rewrite Heqk in Hrun. simpl in Hrun. simpl.
  eapply for_each_mono; [|exact Hrun].
  intros i m1 m2. apply try_cast_mono. subst k. exact IH.
Qed.

Lemma dfs_fuel_le fuel fuel' cur tot m m' :
  (fuel ≤ fuel')%nat →
  dfs fuel cur tot m = Done m' → dfs fuel' cur tot m = Done m'.
Proof.
  induction 1 as [|k _ IH]; [done|]. intros H. by apply dfs_fuel_S, IH.
Qed.

Lemma for_each_total {A M} (Inv : M → Prop) (body : A → M → outcome M) xs :
  (∀ x m, x ∈ xs → Inv m → ∃ m', body x m = Done m' ∧ Inv m') →
  ∀ m, Inv m → ∃ m', for_each body xs m = Done m' ∧ Inv m'.
Proof.
  induction xs as [|x xs IH]; intros Hb m Hm; [by exists m|].
  destruct (Hb x m) as (m1 & H1 & Hm1); [left | done |].
  destruct (IH (fun y m Hy => Hb y m (list_elem_of_further _ _ _ Hy)) m1 Hm1)
    as (m' & H2 & Hm').
  exists m'. simpl. rewrite H1. done.
Qed.

Local Abbreviation well_sized := (well_sized skills).

Lemma well_sized_frame m m' : frame m m' → well_sized m → well_sized m'.
Proof. intros (Ha & Hn & _) (? & ?). split; congruence. Qed.

Lemma inject_nat_S (n : nat) :
  inject_Z (Z.of_nat (S n)) == inject_Z (Z.of_nat n) + 1.
Proof. rewrite Nat2Z.inj_succ. unfold Z.succ. by rewrite inject_Z_plus. Qed.

(** With a positive lower bound [cmin] on the cast durations every cast
    advances the clock by at least [cmin], so a call made at [cur] needs at
    most [n] nested calls when [timeLimit + eps - cur < n * cmin]. *)
Lemma dfs_total_bound (cmin : Q) :
  0 < cmin →
  Forall (fun skill => cmin <= castTimeS skill) skills →
  Forall is_Some cooldown → length cooldown = length skills →
  ∀ (n : nat) cur tot m,
    well_sized m →
    timeLimit + eps - cur < inject_Z (Z.of_nat n) * cmin →
    ∃ m', dfs (S n) cur tot m = Done m'.
Proof.
  intros Hcmin Hdur Hcd Hcdlen.
  induction n as [|n IH]; intros cur tot m Hm Hbound.
  - (* no cast fits any more *)
    simpl Dfs.dfs.
    set (m1 := if Qlt_le_dec (Dfs.bestDamageSoFar m) tot
               then Dfs.record_best tot m else m).
    assert (Hm1 : well_sized m1) by (subst m1; by destruct (Qlt_le_dec _ _)).
    destruct (for_each_total well_sized
                (try_cast (Dfs.dfs eps timeLimit cooldown 0) cur tot)
                (seq 0 (length (arg_skills (Dfs.args m1))))) with (m := m1)
      as (m' & Hrun & _); [| done | by exists m'].
    intros i ma Hi (Hska & Hlena).
    rewrite (proj1 Hm1) in Hi. apply elem_of_seq in Hi.
    destruct (lookup_lt_is_Some_2 skills i) as [skill Hs]; [lia|].
    destruct (lookup_lt_is_Some_2 (Dfs.nextAvailTimes ma) i) as [a Ha]; [lia|].
    exists ma. split; [|done].
    unfold Dfs.try_cast, read. rewrite Hska, Hs, Ha. simpl.
    destruct (Qlt_le_dec timeLimit a); [done|].
    destruct (Qlt_le_dec (timeLimit + eps) _) as [|Hfit]; [done|]. exfalso.
    pose proof (Q.le_max_l cur a).
    assert (cmin <= castTimeS skill)
      by (eapply Forall_lookup_1 in Hdur; eauto).
    change (inject_Z (Z.of_nat 0)) with 0 in Hbound. lra.
  - remember (S n) as k. simpl Dfs.dfs.
    set (m1 := if Qlt_le_dec (Dfs.bestDamageSoFar m) tot
               then Dfs.record_best tot m else m).
    assert (Hm1 : well_sized m1) by (subst m1; by destruct (Qlt_le_dec _ _)).
    destruct (for_each_total well_sized
                (try_cast (Dfs.dfs eps timeLimit cooldown k) cur tot)
                (seq 0 (length (arg_skills (Dfs.args m1))))) with (m := m1)
      as (m' & Hrun & _); [| done | by exists m'].
    intros i ma Hi Hwa. pose proof Hwa as (Hska & Hlena).
    rewrite (proj1 Hm1) in Hi. apply elem_of_seq in Hi.
    destruct (lookup_lt_is_Some_2 skills i) as [skill Hs]; [lia|].
    destruct (lookup_lt_is_Some_2 (Dfs.nextAvailTimes ma) i) as [a Ha]; [lia|].
    destruct (lookup_lt_is_Some_2 cooldown i) as [ocd Hocd]; [lia|].
    assert (is_Some ocd) as [cd ->] by (eapply Forall_lookup_1 in Hcd; eauto).
    unfold Dfs.try_cast, read, read_number. rewrite Hska, Hs, Ha, Hocd. simpl.
    destruct (Qlt_le_dec timeLimit a); [by exists ma; split|].
    destruct (Qlt_le_dec (timeLimit + eps) _) as [|Hfit];
      [by exists ma; split|].
    set (castEnd := Qmax cur a + castTimeS skill) in *.
    set (m_in := Dfs.enter i (castEnd + cd) (skillName skill) ma).
    assert (Hin : well_sized m_in).
    { subst m_in. split; simpl; [done|]. by rewrite length_insert. }
    destruct (IH castEnd (tot + damage skill) m_in Hin) as (m2 & Hcall).
    { pose proof (Q.le_max_l cur a).
      assert (cmin <= castTimeS skill)
        by (eapply Forall_lookup_1 in Hdur; eauto).
      rewrite Heqk, inject_nat_S in Hbound. subst castEnd. lra. }
    subst k. rewrite Hcall. simpl. eexists. split; [done|].
    eapply well_sized_frame; [|exact Hwa].
    eapply leave_enter_frame; [exact Ha|]. by eapply dfs_frame.
Qed.

End DfsFacts.

(** ** Whole depth-first searches *)

Section DfsSearchFacts.
Import Schedule Spec.

Lemma effectiveRecast_length skills gearCombo :
  length (effectiveRecast skills gearCombo) = length skills.
Proof. apply length_imap. Qed.

Lemma effectiveRecast_defined skills gearCombo :
  covers gearCombo skills → Forall is_Some (effectiveRecast skills gearCombo).
Proof.
  intros Hcov. apply Forall_lookup_2. intros i o Ho.
  unfold effectiveRecast in Ho. rewrite list_lookup_imap in Ho.
  destruct (skills !! i) as [skill|] eqn:Hs; [|done]. simpl in Ho.
  apply lookup_lt_Some in Hs.
  destruct (lookup_lt_is_Some_2 gearCombo i) as [x Hx];
    [unfold covers in Hcov; lia|].
  rewrite Hx in Ho. injection Ho as <-. done.
Qed.

Lemma nonnegative_cooldowns_defined a :
  nonnegative_cooldowns a →
  Forall is_Some (effectiveRecast (arg_skills a) (arg_gearCombo a)).
Proof.
  intros H. eapply Forall_impl; [exact H|]. intros o (cd & -> & _). done.
Qed.

(** A positive lower bound on finitely many positive durations. *)
Lemma positive_durations_bound skills :
  positive_durations skills →
  ∃ cmin, 0 < cmin ∧ Forall (fun skill => cmin <= castTimeS skill) skills.
Proof.
  induction 1 as [|skill skills Hpos _ (cmin & Hc & Hall)].
  - exists 1. split; [lra | constructor].
  - exists (Qmin (castTimeS skill) cmin). split.
    + by apply Q.min_glb_lt.
    + constructor; [apply Q.le_min_l|].
      eapply Forall_impl; [exact Hall|]. intros s Hs. simpl in Hs.
      pose proof (Q.le_min_r (castTimeS skill) cmin). lra.
Qed.

(** Enough multiples of a positive step pass any bound. *)
Lemma steps_exist (x cmin : Q) :
  0 < cmin → ∃ n : nat, x < inject_Z (Z.of_nat n) * cmin.
Proof.
  intros Hc. exists (Z.to_nat (Z.max 0 (Qfloor (x / cmin) + 1))).
  rewrite Z2Nat.id by lia.
  assert (Hx : x == x / cmin * cmin) by (field; lra).
  pose proof (Qlt_floor (x / cmin)) as Hfl.
  assert (Hmax : inject_Z (Qfloor (x / cmin) + 1)
                 <= inject_Z (Z.max 0 (Qfloor (x / cmin) + 1)))
    by (rewrite <- Zle_Qle; lia).
  assert (x / cmin < inject_Z (Z.max 0 (Qfloor (x / cmin) + 1))) by lra.
  rewrite Hx at 1. apply Qmult_lt_compat_r; done.
Qed.

(** Termination of the depth-first search under a tolerance [eps]. *)
Lemma dfs_search_total eps skills gearCombo timeLimit :
  positive_durations skills →
  Forall is_Some (effectiveRecast skills gearCombo) →
  ∃ fuel r,
    Dfs.search eps fuel (args_of skills gearCombo) timeLimit
    = Done (r, args_of skills gearCombo).
Proof.
  intros Hpos Hdef.
  destruct (positive_durations_bound _ Hpos) as (cmin & Hc & Hall).
  destruct (steps_exist (timeLimit + eps - 0) cmin Hc) as (n & Hn).
  destruct (dfs_total_bound eps timeLimit (effectiveRecast skills gearCombo)
              skills cmin Hc Hall Hdef (effectiveRecast_length _ _)
              n 0 0 (Dfs.initial (args_of skills gearCombo)))
    as (m' & Hrun); [| done |].
  { split; [done|]. simpl. by rewrite length_map. }
  exists (S n). unfold Dfs.search.
  change (arg_skills (args_of skills gearCombo)) with skills.
  change (arg_gearCombo (args_of skills gearCombo)) with gearCombo.
  rewrite Hrun. simpl.
  apply dfs_frame in Hrun as (-> & _). eauto.
Qed.

(** What a returned depth-first result is: the arrays come back unchanged,
    the damage bounds every plan the guards accept from the root, and it is
    the damage of such a plan, whose names are the returned sequence. *)
Lemma dfs_search_post eps fuel a timeLimit r a' :
  Dfs.search eps fuel a timeLimit = Done (r, a') →
  let skills := arg_skills a in
  let cooldown := effectiveRecast (arg_skills a) (arg_gearCombo a) in
  a' = a
  ∧ (∀ plan, feasible skills cooldown (accepted timeLimit eps) plan →
       plan_damage skills plan <= totalDamage r)
  ∧ ∃ plan, feasible skills cooldown (accepted timeLimit eps) plan
            ∧ totalDamage r = plan_damage skills plan
            ∧ sequence r = names skills plan.
Proof.
  unfold Dfs.search. intros Hrun.
  apply bind_Done in Hrun as (m & Hrun & [= <- <-]). simpl.
  pose proof (dfs_frame _ _ _ _ _ _ _ _ Hrun) as (Hargs & _).
  apply (dfs_post _ _ _ (arg_skills a)) in Hrun as (_ & Hcov & Hbest);
    [|done].
  split_and!; [done | exact Hcov |].
  destruct Hbest as [[Hd Hq]|(plan & Hfeas & Hd & Hq)].
  - exists []. split_and!; [apply feasible_from_nil | done | done].
  - exists plan. done.
Qed.

End DfsSearchFacts.

(** ** Guards of the code and legality of the specification *)

Section Legality.
Import Schedule Spec.

Variable skills : list Skill.
Variable cooldown : list (option Q).
Variable timeLimit : Q.

Lemma cast_at_shape i nd c nd' :
  cast_at skills cooldown i nd = Some (c, nd') →
  who c = i
  ∧ availableAt c <= startTime c
  ∧ now nd <= startTime c
  ∧ ∃ skill, skills !! i = Some skill
             ∧ castEnd c = startTime c + castTimeS skill.
Proof.
  unfold cast_at.
  destruct (skills !! i) as [skill|]; [|done]. simpl.
  destruct (avail nd !! i) as [a|]; [|done]. simpl.
  destruct (mjoin (cooldown !! i)) as [cd|]; [|done]. simpl.
  intros [= <- <-]. simpl. split_and!.
  - done.
  - apply Q.le_max_r.
  - apply Q.le_max_l.
  - by exists skill.
Qed.

(** With durations that are not negative, the availability guard follows
    from the feasibility guard, and with no tolerance the feasibility guard
    is legality: the plans the TypeScript searches accept are the legal
    ones. *)
Lemma accepted_iff_legal plan : ∀ nd,
  Forall (fun skill => 0 <= castTimeS skill) skills →
  feasible_from skills cooldown (accepted timeLimit 0) plan nd
  ↔ feasible_from skills cooldown (legal timeLimit) plan nd.
Proof.
  intros nd Hdur. revert nd.
  induction plan as [|i plan IH]; intros nd.
  { split; intros _; apply feasible_from_nil. }
  rewrite !feasible_from_cons. split.
  - intros (c & nd' & Hc & [_ Hend] & Hrest). exists c, nd'.
    split_and!; [done | unfold legal; lra | by apply IH].
  - intros (c & nd' & Hc & Hend & Hrest). exists c, nd'.
    split_and!; [done | | by apply IH].
    apply cast_at_shape in Hc as (_ & Hav & _ & skill & Hs & Hce).
    eapply Forall_lookup_1 in Hdur; [|exact Hs]. simpl in Hdur.
    unfold legal in Hend. rewrite Hce in Hend. split; [lra|].
    rewrite Hce. lra.
Qed.

Lemma greatest_ext (ok ok' : Cast → Prop) d :
  (∀ plan, feasible skills cooldown ok plan
           ↔ feasible skills cooldown ok' plan) →
  greatest skills cooldown ok d → greatest skills cooldown ok' d.
Proof.
  intros Hiff ((plan & Hfeas & Hd) & Hmax). split.
  - exists plan. split; [by apply Hiff | done].
  - intros plan' Hp. apply Hmax. by apply Hiff.
Qed.

End Legality.

(** ** The roster with an instantaneous action *)

Section Instant.
Import Spec Inputs.

Let cooldown := effectiveRecast instant [0].

(** Casting the instantaneous action leaves the clock and its availability
    at zero, so every call makes another call: no amount of fuel is
    enough. *)
Lemma instant_dfs_out_of_fuel eps : 0 <= eps → ∀ fuel cur tot m x,
  cur == 0 → x == 0 →
  Dfs.args m = args_of instant [0] → Dfs.nextAvailTimes m = [x] →
  Dfs.dfs eps 1 cooldown fuel cur tot m = OutOfFuel.
Proof.
  intros Heps. induction fuel as [|fuel IH]; intros cur tot m x Hcur Hx Ha Hn;
    [done|].
  simpl.
  set (m1 := if Qlt_le_dec (Dfs.bestDamageSoFar m) tot
             then Dfs.record_best tot m else m).
  assert (Ha1 : Dfs.args m1 = args_of instant [0])
    by (subst m1; by destruct (Qlt_le_dec _ _)).
  assert (Hn1 : Dfs.nextAvailTimes m1 = [x])
    by (subst m1; by destruct (Qlt_le_dec _ _)).
  rewrite Ha1. simpl. unfold Dfs.try_cast. rewrite Ha1, Hn1. simpl.
  destruct (Qlt_le_dec 1 x); [lra|].
  pose proof (Q.max_lub cur x 0) as Hlub.
  pose proof (Q.le_max_l cur x) as Hl.
  destruct (Qlt_le_dec (1 + eps) (Qmax cur x + 0)); [lra|].
  simpl.
  rewrite (IH (Qmax cur x + 0) (tot + 1) _
             (Qmax cur x + 0 + 0 * (1 - 0 / 100))).
  - reflexivity.
  - lra.
  - assert (0 * (1 - 0 / 100) == 0) by reflexivity. lra.
  - exact Ha1.
  - simpl. by rewrite Hn1.
Qed.

Lemma instant_search_out_of_fuel eps fuel :
  0 <= eps → Dfs.search eps fuel (args_of instant [0]) 1 = OutOfFuel.
Proof.
  intros Heps. unfold Dfs.search.
  rewrite (instant_dfs_out_of_fuel eps Heps fuel 0 0 _ 0); done.
Qed.

End Instant.






(** C8: Scenario A.  One action with cast duration 1, cooldown 5, damage 10
    and the sole modifier 0, in a window of 11: the search returns damage 20
    with exactly two casts of the action.  The first cast runs from 0 to 1
    and makes the action available at 6; the second runs from 6 to 7 and
    makes it available at 12, after the time limit, so the loop skips a
    third cast.  All three variants return the same result. *)
Theorem scenario_A :
  let a := Spec.args_of Inputs.scenarioA [0] in
  let cooldown := effectiveRecast Inputs.scenarioA [0] in
  let two := {| totalDamage := 20; sequence := ["A"; "A"]%string |} in
  Dfs.findBestDamageSchedule 3 a 11 = Done (two, a)
  ∧ Bfs.findBestDamageSchedule 3 a 11 = Done (two, a)
  ∧ Dfs.findBestDamageSchedule_cpp 3 a 11 = Done (two, a)
  ∧ ∃ c1 c2 nd1 nd2 next1 next2,
      Schedule.cast_at Inputs.scenarioA cooldown 0
        (Schedule.root Inputs.scenarioA) = Some (c1, nd1)
      ∧ Schedule.startTime c1 == 0 ∧ Schedule.castEnd c1 == 1
      ∧ Schedule.avail nd1 = [next1] ∧ next1 == 6
      ∧ Schedule.cast_at Inputs.scenarioA cooldown 0 nd1 = Some (c2, nd2)
      ∧ Schedule.startTime c2 == 6 ∧ Schedule.castEnd c2 == 7
      ∧ Schedule.avail nd2 = [next2] ∧ next2 == 12 ∧ 11 < next2.
Proof.
  split_and!; [by vm_compute | by vm_compute | by vm_compute |].
  do 6 eexists. split_and!; try by vm_compute.
Qed.

(** ** Replaying plans and names *)

Section ReplayFacts.
Import Schedule Spec.

Variable skills : list Skill.
Variable cooldown : list (option Q).

Lemma replay_snoc plan : ∀ nd cs nd1 i c nd2,
  replay skills cooldown plan nd = Some (cs, nd1) →
  cast_at skills cooldown i nd1 = Some (c, nd2) →
  replay skills cooldown (plan ++ [i]) nd = Some (cs ++ [c], nd2).
Proof.
  induction plan as [|j plan IH]; intros nd cs nd1 i c nd2 Hrun Hc.
  - simpl in Hrun. injection Hrun as <- <-. simpl. by rewrite Hc.
  - simpl in *.
    destruct (cast_at skills cooldown j nd) as [[c0 nd0]|]; [|done].
    simpl in *.
    destruct (replay skills cooldown plan nd0) as [[cs0 nd3]|] eqn:Hr;
      [|done].
    simpl in Hrun. injection Hrun as <- <-.
    by rewrite (IH _ _ _ _ _ _ Hr Hc).
Qed.

Lemma replay_on_time plan : ∀ nd cs nd',
  replay skills cooldown plan nd = Some (cs, nd') → Forall on_time cs.
Proof.
  induction plan as [|j plan IH]; intros nd cs nd' Hrun.
  - simpl in Hrun. injection Hrun as <- <-. constructor.
  - simpl in Hrun.
    destruct (cast_at skills cooldown j nd) as [[c0 nd0]|] eqn:Hc; [|done].
    simpl in Hrun.
    destruct (replay skills cooldown plan nd0) as [[cs0 nd3]|] eqn:Hr;
      [|done].
    simpl in Hrun. injection Hrun as <- <-. constructor; [|by eapply IH].
    by apply cast_at_shape in Hc as (_ & ? & _).
Qed.

Lemma replay_indices plan : ∀ nd cs nd',
  replay skills cooldown plan nd = Some (cs, nd') →
  Forall (fun i => (i < length skills)%nat) plan.
Proof.
  induction plan as [|j plan IH]; intros nd cs nd' Hrun; [constructor|].
  simpl in Hrun.
  destruct (cast_at skills cooldown j nd) as [[c0 nd0]|] eqn:Hc; [|done].
  simpl in Hrun.
  destruct (replay skills cooldown plan nd0) as [[cs0 nd3]|] eqn:Hr; [|done].
  constructor; [by eapply cast_at_index | by eapply IH].
Qed.

Lemma damage_from_snoc acc plan i :
  damage_from skills acc (plan ++ [i])
  = damage_from skills acc plan + damage_of skills i.
Proof. unfold damage_from. by rewrite fold_left_app. Qed.

Lemma names_snoc plan i :
  names skills (plan ++ [i]) = names skills plan ++ [name_of skills i].
Proof. unfold names. by rewrite map_app. Qed.

(** With unique names, a name resolves to the action that carries it. *)
Lemma resolve_name_of i :
  unique_names skills → (i < length skills)%nat →
  resolve skills (name_of skills i) = Some i.
Proof.
  intros Hnd Hi. unfold resolve, name_of.
  destruct (lookup_lt_is_Some_2 skills i Hi) as [skill Hs]. rewrite Hs. simpl.
  destruct (list_find_elem_of (fun s => skillName s = skillName skill)
              skills skill) as [[j y] Hfind];
    [by eapply list_elem_of_lookup_2 | done |].
  rewrite Hfind. simpl. f_equal.
  apply list_find_Some in Hfind as (Hy & Hname & _).
  eapply (NoDup_lookup _ _ _ _ Hnd).
  - rewrite list_lookup_fmap, Hy. simpl. by rewrite Hname.
  - by rewrite list_lookup_fmap, Hs.
Qed.

Lemma resolve_names plan :
  unique_names skills →
  Forall (fun i => (i < length skills)%nat) plan →
  mapM (resolve skills) (names skills plan) = Some plan.
Proof.
  intros Hnd Hplan. apply mapM_Some_2.
  unfold names. apply Forall2_fmap_l, Forall_Forall2_diag.
  eapply Forall_impl; [exact Hplan|]. intros i Hi. by apply resolve_name_of.
Qed.

(** An accepted plan, returned with its damage and its names, is a sound
    schedule. *)
Lemma feasible_sound gearCombo timeLimit eps plan r :
  cooldown = effectiveRecast skills gearCombo →
  feasible skills cooldown (accepted timeLimit eps) plan →
  totalDamage r = plan_damage skills plan →
  sequence r = names skills plan →
  sound_schedule (args_of skills gearCombo) timeLimit eps r.
Proof.
  intros Hcd (cs & nd & Hrun & Hok) Hd Hq.
  assert (Hcasts : Forall (fun c => on_time c ∧ castEnd c <= timeLimit + eps)
                     cs).
  { pose proof (replay_on_time _ _ _ _ Hrun) as Hon.
    apply Forall_and. split; [done|].
    eapply Forall_impl; [exact Hok|]. by intros c [_ ?]. }
  split.
  - exists plan. unfold replays_as. simpl. rewrite <- Hcd.
    split_and!; [done | by rewrite Hd |]. by exists cs, nd.
  - simpl. intros Hnd. unfold valid_schedule. simpl. rewrite <- Hcd.
    pose proof (resolve_names plan Hnd (replay_indices _ _ _ _ Hrun)) as Hres.
    exists cs, nd. split_and!.
    + unfold replay_names. rewrite Hq, Hres. done.
    + done.
    + unfold damage_of_names. rewrite Hq, Hres, Hd. done.
Qed.

End ReplayFacts.

(** ** The bounded-frontier search *)

Section BfsFacts.
Import Schedule BfsSpec.

Variable K : nat.
Variable timeLimit : Q.
Variable cooldown : list (option Q).

Local Abbreviation expand := (Bfs.expand K timeLimit cooldown).
Local Abbreviation loop := (Bfs.loop K timeLimit cooldown).

(** The retention decision touches the queue, the heaps and the two
    counters only, and it has three outcomes. *)
Lemma retain_cases s m :
  let m' := Bfs.retain K s m in
  Bfs.args m' = Bfs.args m
  ∧ Bfs.bestDamage m' = Bfs.bestDamage m
  ∧ Bfs.bestSequence m' = Bfs.bestSequence m
  ∧ ((Bfs.queue m' = Bfs.queue m ++ [s]
      ∧ Bfs.evictions m' = Bfs.evictions m ∧ Bfs.prunes m' = Bfs.prunes m)
     ∨ (Bfs.queue m' = Bfs.queue m ++ [s]
        ∧ Bfs.evictions m' = S (Bfs.evictions m)
        ∧ Bfs.prunes m' = Bfs.prunes m)
     ∨ (Bfs.queue m' = Bfs.queue m
        ∧ Bfs.evictions m' = Bfs.evictions m
        ∧ Bfs.prunes m' = S (Bfs.prunes m))).
Proof.
  unfold Bfs.retain.
  destruct (decide _); simpl; [split_and!; try done; by left|].
  destruct (Bfs.Heap.front _) as [worst|]; simpl.
  - destruct (Qlt_le_dec _ _); simpl; split_and!; try done.
    + right. by left.
    + right. by right.
  - split_and!; try done. right. by right.
Qed.

Lemma expand_inv state i m m' :
  expand state i m = Done m' →
  (m' = m ∧
   ∀ c nd', cast_at (arg_skills (Bfs.args m)) cooldown i (node state)
              = Some (c, nd') → ¬ accepted timeLimit 0 c)
  ∨ ∃ skill c cd,
      arg_skills (Bfs.args m) !! i = Some skill
      ∧ cast_at (arg_skills (Bfs.args m)) cooldown i (node state)
          = Some (c, node (successor state i skill c cd))
      ∧ accepted timeLimit 0 c
      ∧ m' = Bfs.retain K (successor state i skill c cd) m.
Proof.
  unfold Bfs.expand. intros H.
  apply bind_Done in H as (skill & Hs & H). apply read_Done in Hs.
  apply bind_Done in H as (a & Ha & H). apply read_Done in Ha.
  unfold cast_at, node. simpl. rewrite Hs, Ha. simpl.
  destruct (Qlt_le_dec timeLimit a) as [Hlate|Hav].
  { left. injection H as <-. split; [done|].
    intros c nd'. destruct (mjoin (cooldown !! i)); [|done]. simpl.
    intros [= <- <-] [Hc _]. simpl in Hc. lra. }
  destruct (Qlt_le_dec timeLimit _) as [Hlong|Hfit].
  { left. injection H as <-. split; [done|].
    intros c nd'. destruct (mjoin (cooldown !! i)); [|done]. simpl.
    intros [= <- <-] [_ Hc]. simpl in Hc. lra. }
  right.
  apply bind_Done in H as (cd & Hcd & H). apply read_number_Done in Hcd.
  injection H as <-. rewrite Hcd. simpl.
  exists skill,
    {| who := i; availableAt := a;
       startTime := Qmax (Bfs.currentTime state) a;
       castEnd := Qmax (Bfs.currentTime state) a + castTimeS skill |}, cd.
  split_and!; try done. split; simpl; lra.
Qed.

Lemma grows_refl m : grows m m.
Proof. split_and!; try done. exists []. by rewrite app_nil_r. Qed.

Lemma grows_trans m1 m2 m3 : grows m1 m2 → grows m2 m3 → grows m1 m3.
Proof.
  intros (? & ? & ? & ? & ? & add1 & Hq1) (? & ? & ? & ? & ? & add2 & Hq2).
  split_and!; try congruence; try lia.
  exists (add1 ++ add2). by rewrite Hq2, Hq1, app_assoc.
Qed.

Lemma expand_grows state i m m' : expand state i m = Done m' → grows m m'.
Proof.
  intros H. apply expand_inv in H as [[-> _]|(skill & c & cd & _ & _ & _ & ->)].
  - apply grows_refl.
  - destruct (retain_cases (successor state i skill c cd) m)
      as (Ha & Hd & Hq & [(Hqu & He & Hp)|[(Hqu & He & Hp)|(Hqu & He & Hp)]]);
      split_and!; try done; try lia.
    + by exists [successor state i skill c cd].
    + by exists [successor state i skill c cd].
    + exists []. by rewrite app_nil_r.
Qed.

Lemma expansion_grows state idx m m' :
  for_each (expand state) idx m = Done m' → grows m m'.
Proof.
  apply (for_each_preserves grows); [apply grows_refl | apply grows_trans |].
  intros i m1 m2 _. apply expand_grows.
Qed.

Variable skills : list Skill.

Local Abbreviation reached := (reached skills cooldown timeLimit).
Local Abbreviation invariant := (invariant skills cooldown timeLimit).
Local Abbreviation covers_queue := (covers_queue skills cooldown timeLimit).

Lemma successor_reached state i skill c cd :
  reached state →
  skills !! i = Some skill →
  cast_at skills cooldown i (node state)
  = Some (c, node (successor state i skill c cd)) →
  accepted timeLimit 0 c →
  reached (successor state i skill c cd).
Proof.
  intros (plan & cs & Hrun & Hok & Hd & Hq) Hs Hc Hacc.
  exists (plan ++ [i]), (cs ++ [c]). split_and!.
  - by eapply replay_snoc.
  - apply Forall_app. split; [done | by constructor].
  - simpl. unfold plan_damage. rewrite damage_from_snoc, Hd.
    unfold damage_of. by rewrite Hs.
  - simpl. rewrite names_snoc, Hq. unfold name_of. by rewrite Hs.
Qed.

Lemma expand_invariant state i m m' :
  reached state → expand state i m = Done m' → invariant m → invariant m'.
Proof.
  intros Hst H (Hsk & Hq & Hbest).
  apply expand_inv in H as [[-> _]|(skill & c & cd & Hs & Hc & Hacc & ->)];
    [done|].
  rewrite Hsk in Hs, Hc.
  pose proof (successor_reached _ _ _ _ _ Hst Hs Hc Hacc) as Hnew.
  destruct (retain_cases (successor state i skill c cd) m)
    as (Ha & Hd & Hsq & Hcases).
  split_and!.
  - by rewrite Ha.
  - destruct Hcases as [(-> & _)|[(-> & _)|(-> & _)]]; [| |done];
      apply Forall_app; split; try done; by constructor.
  - destruct Hbest as (plan & ? & ? & ?). exists plan.
    split_and!; [done | congruence | congruence].
Qed.

Lemma expansion_invariant state idx m m' :
  reached state →
  for_each (expand state) idx m = Done m' → invariant m → invariant m'.
Proof.
  intros Hst.
  apply (for_each_preserves (fun m m' => invariant m → invariant m'));
    [done | by auto |].
  intros i m1 m2 _. by apply expand_invariant.
Qed.

(** If an expansion drops nothing, every accepted cast from the expanded
    state is in the queue afterwards. *)
Lemma expansion_complete state idx : ∀ m m',
  arg_skills (Bfs.args m) = skills →
  for_each (expand state) idx m = Done m' →
  nothing_dropped m m' →
  ∀ i c nd', i ∈ idx →
    cast_at skills cooldown i (node state) = Some (c, nd') →
    accepted timeLimit 0 c →
    ∃ s', s' ∈ Bfs.queue m' ∧ node s' = nd'
          ∧ Bfs.damageSoFar s'
            = Bfs.damageSoFar state + damage_of skills i.
Proof.
  induction idx as [|j idx IH]; intros m m' Hsk Hrun Hnd i c nd' Hi Hc Hacc.
  { by apply elem_of_nil in Hi. }
  simpl in Hrun. apply bind_Done in Hrun as (m1 & Hj & Hrest).
  pose proof (expand_grows _ _ _ _ Hj) as (Ha1 & _ & _ & He1 & Hp1 & _).
  pose proof (expansion_grows _ _ _ _ Hrest)
    as (_ & _ & _ & He2 & Hp2 & added & Hq2).
  destruct Hnd as [Hev Hpr].
  assert (Hnd1 : nothing_dropped m1 m') by (split; lia).
  assert (Hsk1 : arg_skills (Bfs.args m1) = skills) by congruence.
  apply elem_of_cons in Hi as [->|Hi]; [|by eapply (IH m1 m')].
  apply expand_inv in Hj
    as [[-> Hrej]|(skill & c' & cd & Hs & Hc' & _ & ->)].
  { rewrite Hsk in Hrej. by destruct (Hrej c nd' Hc). }
  rewrite Hsk in Hs, Hc'. rewrite Hc in Hc'. injection Hc' as <- ->.
  exists (successor state j skill c cd). split_and!.
  - rewrite Hq2.
    destruct (retain_cases (successor state j skill c cd) m)
      as (_ & _ & _ & [(-> & _)|[(_ & He & _)|(_ & _ & Hp)]]); [|lia|lia].
    apply elem_of_app. left. apply elem_of_app. right. by left.
  - done.
  - simpl. unfold damage_of. by rewrite Hs.
Qed.

(** The work-queue loop.  When it ends the queue is empty, the recorded
    best is an accepted plan and has not decreased, the counters have not
    decreased, and if nothing was dropped the best bounds every accepted
    continuation of every state that was queued. *)
Lemma loop_post fuel : ∀ m m',
  loop fuel m = Done m' → invariant m →
  invariant m'
  ∧ Bfs.args m' = Bfs.args m
  ∧ Bfs.bestDamage m <= Bfs.bestDamage m'
  ∧ (Bfs.evictions m ≤ Bfs.evictions m')%nat
  ∧ (Bfs.prunes m ≤ Bfs.prunes m')%nat
  ∧ (nothing_dropped m m' → covers_queue (Bfs.queue m) m').
Proof.
  induction fuel as [|fuel IH]; intros m m' Hrun Hinv.
  { simpl in Hrun. destruct (Bfs.queue m) eqn:Hq; [|done].
    injection Hrun as <-. split_and!; try done; try lra.
    intros _ s plan Hs. by apply elem_of_nil in Hs. }
  simpl in Hrun. destruct (Bfs.queue m) as [|state rest] eqn:Hq.
  { injection Hrun as <-. split_and!; try done; try lra.
    intros _ s plan Hs. by apply elem_of_nil in Hs. }
  destruct Hinv as (Hsk & Hreached & Hbest). rewrite Hq in Hreached.
  apply Forall_cons in Hreached as [Hstate Hrest].
  set (ma := Bfs.count_expansion (Bfs.set_queue rest m)) in *.
  set (mb := if Qlt_le_dec (Bfs.bestDamage m) (Bfs.damageSoFar state)
             then Bfs.set_best (Bfs.damageSoFar state)
                    (Bfs.castSequence state) ma
             else ma) in *.
  apply bind_Done in Hrun as (mc & Hexp & Hloop).
  assert (Hb : Bfs.args mb = Bfs.args m ∧ Bfs.queue mb = rest
               ∧ Bfs.evictions mb = Bfs.evictions m
               ∧ Bfs.prunes mb = Bfs.prunes m
               ∧ Bfs.bestDamage m <= Bfs.bestDamage mb
               ∧ Bfs.damageSoFar state <= Bfs.bestDamage mb).
  { subst mb ma. destruct (Qlt_le_dec _ _); simpl in *; split_and!;
      try done; lra. }
  destruct Hb as (Hab & Hqb & Heb & Hpb & Hmono_b & Hstate_b).
  assert (Hinvb : invariant mb).
  { split_and!; [congruence | by rewrite Hqb |].
    subst mb. destruct (Qlt_le_dec _ _); [|done].
    destruct Hstate as (plan & cs & Hrun & Hok & Hd & Hsq).
    exists plan. split_and!; [by exists cs, (node state) | done | done]. }
  pose proof (expansion_invariant _ _ _ _ Hstate Hexp Hinvb) as Hinvc.
  pose proof (expansion_grows _ _ _ _ Hexp)
    as (Hac & Hdc & _ & Hec & Hpc & added & Hqc).
  destruct (IH mc m' Hloop Hinvc) as (Hinv' & Ha' & Hmono & He' & Hp' & Hcov).
  rewrite Hdc in Hmono.
  split_and!; [done | congruence | lra | lia | lia |].
  intros [Hev Hpr] s plan Hs Hfeas.
  assert (Hnd_c : nothing_dropped mc m') by (split; lia).
  assert (Hnd_b : nothing_dropped mb mc) by (split; lia).
  specialize (Hcov Hnd_c).
  apply elem_of_cons in Hs as [->|Hs].
  - destruct plan as [|i plan].
    + unfold damage_from. simpl. lra.
    + apply feasible_from_cons in Hfeas as (c & nd' & Hc & Hacc & Hplan).
      destruct (expansion_complete state
                  (seq 0 (length (arg_skills (Bfs.args mb)))) mb mc)
        with (i := i) (c := c) (nd' := nd') as (s' & Hs' & Hnode & Hd');
        [congruence | exact Hexp | done | | done | done |].
      { apply cast_at_index in Hc. rewrite Hab, Hsk.
        apply elem_of_seq. lia. }
      unfold damage_from. simpl. fold (damage_from skills).
      rewrite <- Hd'. apply Hcov; [done | by rewrite Hnode].
  - apply Hcov; [|done]. rewrite Hqc, Hqb. apply elem_of_app. by left.
Qed.

End BfsFacts.

(** ** Whole bounded-frontier searches *)

Section BfsSearchFacts.
Import Schedule Spec.

(** What a returned bounded-frontier result is: the caller's arrays are
    unchanged, the result is an accepted plan with its damage and names,
    and if no state was evicted or pruned it bounds every accepted plan. *)
Lemma bfs_run_post K fuel a timeLimit r m :
  Bfs.run K fuel a timeLimit = Done (r, m) →
  let skills := arg_skills a in
  let cooldown := effectiveRecast (arg_skills a) (arg_gearCombo a) in
  Bfs.args m = a
  ∧ (∃ plan, feasible skills cooldown (accepted timeLimit 0) plan
             ∧ totalDamage r = plan_damage skills plan
             ∧ sequence r = names skills plan)
  ∧ (Bfs.evictions m = 0%nat → Bfs.prunes m = 0%nat →
     ∀ plan, feasible skills cooldown (accepted timeLimit 0) plan →
             plan_damage skills plan <= totalDamage r).
Proof.
  unfold Bfs.run. intros Hrun.
  apply bind_Done in Hrun as (m' & Hloop & [= <- <-]). simpl.
  apply (loop_post _ _ _ (arg_skills a)) in Hloop
    as ((_ & _ & Hbest) & Ha & _ & _ & _ & Hcov).
  - split_and!; [done | exact Hbest |].
    intros Hev Hpr plan Hfeas.
    apply (Hcov (conj Hev Hpr) _ plan (list_elem_of_here _ _)). exact Hfeas.
  - split_and!; [done | |].
    + constructor; [|constructor]. exists [], []. done.
    + exists []. split_and!; [apply feasible_from_nil | done | done].
Qed.

Lemma bfs_search_run K fuel a timeLimit r a' :
  Bfs.search K fuel a timeLimit = Done (r, a') →
  ∃ m, Bfs.run K fuel a timeLimit = Done (r, m) ∧ a' = Bfs.args m.
Proof.
  unfold Bfs.search. intros H.
  apply bind_Done in H as ([r' m] & Hrun & [= <- <-]). eauto.
Qed.

End BfsSearchFacts.




(** ** The set-up optimiser *)

Section SetupFacts.
Import Setup Spec.

Variable search : list Skill → list Q → Q → outcome ScheduleResult.
Variable skills : list Skill.
Variable timeLimit : Q.

(** Both searches start from a best of zero and only raise it. *)
Hypothesis search_nonneg :
  ∀ g r, search skills g timeLimit = Done r → 0 <= totalDamage r.

Local Abbreviation consider := (consider search same_damage skills timeLimit).
Local Abbreviation selected := (selected search skills timeLimit).

Lemma cheaper_true thisCost best :
  cheaper thisCost best = true →
  match best with Some c => thisCost < c | None => True end.
Proof.
  unfold cheaper. destruct best as [c|]; [|done].
  by destruct (Qlt_le_dec thisCost c).
Qed.

Lemma cheaper_false thisCost best :
  cheaper thisCost best = false → ∃ c, best = Some c ∧ c <= thisCost.
Proof.
  unfold cheaper. destruct best as [c|]; [|done].
  destruct (Qlt_le_dec thisCost c); [done|]. eauto.
Qed.

(** One iteration of the selection loop. *)
Lemma consider_selected seen b g b' :
  (seen = [] ∧ b = start) ∨ selected seen b →
  consider g b = Done b' →
  selected (seen ++ [g]) b'.
Proof.
  intros Hinv Hstep. unfold Setup.consider in Hstep.
  apply bind_Done in Hstep as (r & Hr & Hstep).
  pose proof (search_nonneg g r Hr) as Hnn.
  destruct (Qlt_le_dec (topDamage b) (totalDamage r)) as [Hgt|Hle].
  { (* strictly more damage *)
    injection Hstep as <-. exists r. simpl. split_and!; try done.
    - apply elem_of_app. right. by left.
    - intros g' r' Hg' Hr'. apply elem_of_app in Hg' as [Hg'|Hg'].
      + destruct Hinv as [[-> _]|(_ & _ & _ & _ & _ & _ & Hall)];
          [by apply elem_of_nil in Hg'|].
        destruct (Hall g' r' Hg' Hr') as [Hle' _]. split; lra.
      + apply list_elem_of_singleton in Hg' as ->.
        assert (r' = r) as -> by congruence. split; lra. }
  destruct (same_damage (totalDamage r) (topDamage b)) eqn:Htie.
  - (* the same damage *)
    apply Qeq_bool_iff in Htie.
    destruct (cheaper (gear_cost g) (bestGearCost b)) eqn:Hch.
    + apply cheaper_true in Hch.
      injection Hstep as <-. exists r. simpl. split_and!; try done.
      * apply elem_of_app. right. by left.
      * intros g' r' Hg' Hr'. apply elem_of_app in Hg' as [Hg'|Hg'].
        -- destruct Hinv as [[-> _]|(_ & _ & _ & _ & _ & Hcost & Hall)];
             [by apply elem_of_nil in Hg'|].
           rewrite Hcost in Hch.
           destruct (Hall g' r' Hg' Hr') as [Hle' Hmin].
           split; [done|]. intros Heq. specialize (Hmin Heq). lra.
        -- apply list_elem_of_singleton in Hg' as ->.
           assert (r' = r) as -> by congruence. split; lra.
    + apply cheaper_false in Hch as (c & Hc & Hcle).
      injection Hstep as <-.
      destruct Hinv as [[_ ->]|(r0 & Hin & Hr0 & Hd0 & Hs0 & Hcost & Hall)];
        [done|].
      exists r0. split_and!; try done.
      * apply elem_of_app. by left.
      * intros g' r' Hg' Hr'. apply elem_of_app in Hg' as [Hg'|Hg'];
          [by apply Hall|].
        apply list_elem_of_singleton in Hg' as ->.
        assert (r' = r) as -> by congruence.
        split; [lra|]. intros _. rewrite Hcost in Hc. injection Hc as <-.
        done.
  - (* strictly less damage *)
    injection Hstep as <-.
    assert (Hlt : totalDamage r < topDamage b).
    { apply Qle_lteq in Hle as [Hlt|Heq]; [done|].
      apply Qeq_bool_iff in Heq. unfold same_damage in Htie. congruence. }
    destruct Hinv as [[_ ->]|(r0 & Hin & Hr0 & Hd0 & Hs0 & Hcost & Hall)].
    { simpl in Hlt. lra. }
    exists r0. split_and!; try done.
    + apply elem_of_app. by left.
    + intros g' r' Hg' Hr'. apply elem_of_app in Hg' as [Hg'|Hg'];
        [by apply Hall|].
      apply list_elem_of_singleton in Hg' as ->.
      assert (r' = r) as -> by congruence.
      split; [lra|]. intros Heq. lra.
Qed.

Lemma select_selected combos : ∀ seen b b',
  (seen = [] ∧ b = start) ∨ selected seen b →
  for_each consider combos b = Done b' →
  (combos = [] ∧ b' = b) ∨ selected (seen ++ combos) b'.
Proof.
  induction combos as [|g combos IH]; intros seen b b' Hinv Hrun.
  { left. simpl in Hrun. by injection Hrun as <-. }
  right. simpl in Hrun. apply bind_Done in Hrun as (b1 & Hstep & Hrest).
  pose proof (consider_selected _ _ _ _ Hinv Hstep) as Hsel.
  destruct (IH (seen ++ [g]) b1 b' (or_intror Hsel) Hrest) as [[-> ->]|Hfin].
  - exact Hsel.
  - by rewrite <- app_assoc in Hfin.
Qed.

(** The selection of the TypeScript optimisers: greatest damage first,
    least summed modifier among equal damage. *)
Lemma optimise_selected combos res :
  combos ≠ [] →
  optimise search same_damage skills timeLimit combos = Done res →
  selected combos
    {| topDamage := bestDamage res; topSequence := castSequence res;
       bestGear := chosenGearPercents res;
       bestGearCost := Some (gear_cost (chosenGearPercents res)) |}.
Proof.
  intros Hne Hrun. unfold optimise, select in Hrun.
  apply bind_Done in Hrun as (b & Hsel & [= <-]). simpl.
  apply (select_selected combos [] start) in Hsel as [[-> _]|Hsel];
    [done | | by left].
  simpl in Hsel. destruct Hsel as (r & ? & ? & ? & ? & ? & ?).
  exists r. simpl. done.
Qed.

Lemma optimise_tie_break combos res :
  optimise search same_damage skills timeLimit combos = Done res →
  tie_break_rule search skills timeLimit combos (chosenGearPercents res).
Proof.
  intros Hrun g1 g2 r1 r2 Hg1 Hg2 Hr1 Hr2.
  assert (Hne : combos ≠ []) by (intros ->; by apply elem_of_nil in Hg1).
  destruct (optimise_selected combos res Hne Hrun)
    as (r & _ & Hr & Hd & _ & _ & Hall). simpl in *.
  destruct (Hall g1 r1 Hg1 Hr1) as [Hle1 Hmin1].
  destruct (Hall g2 r2 Hg2 Hr2) as [Hle2 Hmin2].
  split.
  - intros Hlt Hch. rewrite Hch in Hr.
    assert (r = r1) as -> by congruence. lra.
  - intros Heq Hcost Hch. rewrite Hch in Hr, Hmin1.
    assert (r = r2) as -> by congruence.
    assert (Heq1 : totalDamage r1 == bestDamage res) by lra.
    specialize (Hmin1 Heq1). lra.
Qed.

End SetupFacts.

(** ** The optimisers of the three variants *)

Section Optimisers.
Import Setup Spec.

Lemma call_Done search skills gearCombo timeLimit r :
  call search skills gearCombo timeLimit = Done r
  ↔ ∃ a', search (args_of skills gearCombo) timeLimit = Done (r, a').
Proof.
  unfold call, args_of.
  destruct (search _ timeLimit) as [[r' a']| |]; simpl; split.
  - intros [= <-]. eauto.
  - by intros (a'' & [= <- <-]).
  - done.
  - by intros (? & ?).
  - done.
  - by intros (? & ?).
Qed.

Lemma dfs_search_nonneg eps fuel a timeLimit r a' :
  Dfs.search eps fuel a timeLimit = Done (r, a') → 0 <= totalDamage r.
Proof.
  unfold Dfs.search. intros Hrun.
  apply bind_Done in Hrun as (m & Hrun & [= <- <-]). simpl.
  apply (dfs_post _ _ _ (arg_skills a)) in Hrun as (Hmono & _); done.
Qed.

Lemma bfs_search_nonneg K fuel a timeLimit r a' :
  Bfs.search K fuel a timeLimit = Done (r, a') → 0 <= totalDamage r.
Proof.
  intros Hrun. apply bfs_search_run in Hrun as (m & Hrun & _).
  unfold Bfs.run in Hrun.
  apply bind_Done in Hrun as (m' & Hloop & [= <- <-]). simpl.
  apply (loop_post _ _ _ (arg_skills a)) in Hloop as (_ & _ & Hmono & _);
    [done|].
  split_and!; [done | |].
  - constructor; [|constructor]. exists [], []. done.
  - exists []. split_and!; [apply feasible_from_nil | done | done].
Qed.

(** The selection rule holds for both TypeScript optimisers. *)
Lemma tie_break_typescript fuel skills timeLimit res :
  (findBestDpsSetup fuel skills timeLimit = Done res →
   tie_break_rule (call (Dfs.findBestDamageSchedule fuel)) skills timeLimit
     (Gear.generateAllGearChoices skills) (chosenGearPercents res))
  ∧ (findBestDpsSetup_queue fuel skills timeLimit = Done res →
     tie_break_rule (call (Bfs.findBestDamageSchedule fuel)) skills timeLimit
       (Gear.generateAllGearChoices skills) (chosenGearPercents res)).
Proof.
  split; apply optimise_tie_break; intros g r Hr;
    apply call_Done in Hr as (a' & Hr).
  - by eapply dfs_search_nonneg.
  - by eapply bfs_search_nonneg.
Qed.

(** Without a combination to consider, nothing is selected. *)
Lemma optimise_nothing search tie skills timeLimit :
  optimise search tie skills timeLimit [] = Done (nothing timeLimit).
Proof. reflexivity. Qed.

Lemma cartesian_empty options :
  [] ∈ options → Gear.cartesian options = [].
Proof.
  induction options as [|opts rest IH]; intros Hin.
  - by apply elem_of_nil in Hin.
  - simpl. apply elem_of_cons in Hin as [<-|Hin]; [done|].
    rewrite IH by done. simpl. clear. by induction opts.
Qed.

Lemma no_options_no_choices skills :
  Exists (fun skill => possibleSkillGear skill = []) skills →
  Gear.generateAllGearChoices skills = []
  ∧ Gear.generateAllGearChoices_cpp skills = [].
Proof.
  intros Hex.
  destruct (gear_choices_eq skills) as (-> & ->).
  assert ([] ∈ map possibleSkillGear skills).
  { apply Exists_exists in Hex as (skill & Hin & Hempty).
    rewrite <- Hempty. apply list_elem_of_fmap. by exists skill. }
  split; by apply cartesian_empty.
Qed.

End Optimisers.

(** ** A time limit below zero *)

Section NegativeLimit.
Import Spec.

Lemma for_each_idle {A M} (body : A → M → outcome M) xs m :
  (∀ x, x ∈ xs → body x m = Done m) → for_each body xs m = Done m.
Proof.
  induction xs as [|x xs IH]; intros Hb; [done|].
  simpl. rewrite Hb by left. simpl. apply IH. intros y Hy. apply Hb. by right.
Qed.

Lemma initial_ready (skills : list Skill) i :
  (i < length skills)%nat →
  (map (fun _ : Skill => 0) skills : list Q) !! i = Some 0.
Proof.
  intros Hi. destruct (lookup_lt_is_Some_2 skills i Hi) as [skill Hs].
  change (map (fun _ : Skill => 0) skills) with ((fun _ => 0) <$> skills).
  by rewrite list_lookup_fmap, Hs.
Qed.

(** Every action is ready at 0, which is already past a negative limit:
    the first guard skips every cast. *)
Lemma dfs_negative_limit eps fuel a timeLimit :
  timeLimit < 0 →
  Dfs.search eps (S fuel) a timeLimit
  = Done ({| totalDamage := 0; sequence := [] |}, a).
Proof.
  intros Hneg. unfold Dfs.search. simpl Dfs.dfs.
  destruct (Qlt_le_dec 0 0) as [Habs|_]; [lra|].
  rewrite for_each_idle; [done|].
  intros i Hi. apply elem_of_seq in Hi. simpl in Hi.
  destruct (lookup_lt_is_Some_2 (arg_skills a) i) as [skill Hs]; [lia|].
  unfold Dfs.try_cast, read. simpl. rewrite Hs, initial_ready by lia. simpl.
  by destruct (Qlt_le_dec timeLimit 0); [|lra].
Qed.

Lemma bfs_negative_limit K fuel a timeLimit :
  timeLimit < 0 →
  Bfs.search K (S fuel) a timeLimit
  = Done ({| totalDamage := 0; sequence := [] |}, a).
Proof.
  intros Hneg. unfold Bfs.search, Bfs.run. simpl Bfs.loop.
  destruct (Qlt_le_dec 0 0) as [Habs|_]; [lra|].
  rewrite for_each_idle.
  - simpl. by destruct fuel.
  - intros i Hi. apply elem_of_seq in Hi. simpl in Hi.
    destruct (lookup_lt_is_Some_2 (arg_skills a) i) as [skill Hs]; [lia|].
    unfold Bfs.expand, read. simpl. rewrite Hs, initial_ready by lia. simpl.
    by destruct (Qlt_le_dec timeLimit 0); [|lra].
Qed.

End NegativeLimit.

(** C5 (the code of [main.cpp] against the claim): on the roster
    [Inputs.near_tie] with a window of 8 the three assignments [1], [50]
    and [5] give the damages d, 2d and d with d = 1e-10.  [main.cpp] first
    takes [50] for its strictly greater damage, and then, because d is
    within [EPS] of 2d and 5 < 50, replaces the assignment by [5] while
    keeping the damage 2d: the assignment it reports has neither the
    greatest damage nor, among the assignments of damage d, the least
    summed modifier ([1] is cheaper).  The TypeScript optimisers choose
    [50] on the same input. *)
Theorem cpp_tie_break_violated :
  (∃ res, Setup.findBestDpsSetup_cpp 3 Inputs.near_tie 8 = Done res
          ∧ Setup.bestDamage res == 2 * (1 # 10000000000)
          ∧ Setup.chosenGearPercents res = [5]
          ∧ Setup.castSequence res = ["B"]%string)
  ∧ ¬ Spec.tie_break_rule (Setup.call (Dfs.findBestDamageSchedule_cpp 3))
        Inputs.near_tie 8 (Gear.generateAllGearChoices_cpp Inputs.near_tie)
        [5]
  ∧ (∃ res, Setup.findBestDpsSetup 3 Inputs.near_tie 8 = Done res
            ∧ Setup.chosenGearPercents res = [50])
  ∧ (∃ res, Setup.findBestDpsSetup_queue 3 Inputs.near_tie 8 = Done res
            ∧ Setup.chosenGearPercents res = [50]).
Proof.
  split_and!.
  - eexists. split_and!; by vm_compute.
  - intros Hrule.
    destruct (Hrule [1] [5]
                {| totalDamage := 1 # 10000000000;
                   sequence := ["B"]%string |}
                {| totalDamage := 1 # 10000000000;
                   sequence := ["B"]%string |}) as [_ Hcost].
    + change (Gear.generateAllGearChoices_cpp Inputs.near_tie)
        with [[1]; [50]; [5]]. set_solver.
    + change (Gear.generateAllGearChoices_cpp Inputs.near_tie)
        with [[1]; [50]; [5]]. set_solver.
    + by vm_compute.
    + by vm_compute.
    + apply Hcost; [reflexivity | by vm_compute | reflexivity].
  - eexists. split; by vm_compute.
  - eexists. split; by vm_compute.
Qed.




(** C7 (the code against the claim): the comparisons against the time
    limit do not share one tolerance.  A cast that ends half an [EPS] after
    the limit is accepted by the depth-first search of [main.cpp] and
    rejected by both TypeScript searches, which compare with no tolerance;
    and inside [main.cpp] the availability test has no tolerance either:
    on [Inputs.late_ready] it skips a second cast that would end within
    [EPS] of the limit. *)
Theorem tolerance_not_uniform :
  let over := Spec.args_of Inputs.overhang [0] in
  let late := Spec.args_of Inputs.late_ready [0] in
  Dfs.findBestDamageSchedule_cpp 2 over 1
    = Done ({| totalDamage := 7; sequence := ["C"]%string |}, over)
  ∧ Dfs.findBestDamageSchedule 2 over 1
    = Done ({| totalDamage := 0; sequence := [] |}, over)
  ∧ Bfs.findBestDamageSchedule 2 over 1
    = Done ({| totalDamage := 0; sequence := [] |}, over)
  ∧ Dfs.findBestDamageSchedule_cpp 2 late 1
    = Done ({| totalDamage := 7; sequence := ["D"]%string |}, late)
  ∧ ∃ cs nd,
      Schedule.replay Inputs.late_ready
        (effectiveRecast Inputs.late_ready [0]) [0; 0]%nat
        (Schedule.root Inputs.late_ready) = Some (cs, nd)
      ∧ Forall (fun c => Schedule.castEnd c <= 1 + Dfs.EPS) cs
      ∧ Exists (fun c => 1 < Schedule.availableAt c) cs.
Proof.
  split_and!; try by vm_compute.
  do 2 eexists. split_and!.
  - by vm_compute.
  - repeat constructor; by vm_compute.
  - right. left. by vm_compute.
Qed.

(** ** Runs do not depend on the fuel *)

Section Determinism.
Import Spec.

Lemma bfs_loop_fuel_S K timeLimit cooldown fuel : ∀ m m',
  Bfs.loop K timeLimit cooldown fuel m = Done m' →
  Bfs.loop K timeLimit cooldown (S fuel) m = Done m'.
Proof.
  induction fuel as [|fuel IH]; intros m m' Hrun.
  - simpl in *. by destruct (Bfs.queue m).
  - remember (S fuel) as k. simpl. rewrite Heqk in Hrun. simpl in Hrun.
    destruct (Bfs.queue m) as [|state rest]; [done|].
    apply bind_Done in Hrun as (mc & Hexp & Hloop).
    rewrite Hexp. simpl. subst k. by apply IH.
Qed.

Lemma bfs_loop_fuel_le K timeLimit cooldown fuel fuel' m m' :
  (fuel ≤ fuel')%nat →
  Bfs.loop K timeLimit cooldown fuel m = Done m' →
  Bfs.loop K timeLimit cooldown fuel' m = Done m'.
Proof.
  induction 1 as [|k _ IH]; [done|]. intros H. by apply bfs_loop_fuel_S, IH.
Qed.

Lemma dfs_search_fuel_le eps fuel fuel' a timeLimit x :
  (fuel ≤ fuel')%nat →
  Dfs.search eps fuel a timeLimit = Done x →
  Dfs.search eps fuel' a timeLimit = Done x.
Proof.
  unfold Dfs.search. intros Hle Hrun.
  apply bind_Done in Hrun as (m & Hrun & Hx).
  by rewrite (dfs_fuel_le _ _ _ _ _ _ _ _ _ Hle Hrun).
Qed.

Lemma bfs_search_fuel_le K fuel fuel' a timeLimit x :
  (fuel ≤ fuel')%nat →
  Bfs.search K fuel a timeLimit = Done x →
  Bfs.search K fuel' a timeLimit = Done x.
Proof.
  unfold Bfs.search, Bfs.run. intros Hle Hrun.
  apply bind_Done in Hrun as ([r m] & Hrun & Hx).
  apply bind_Done in Hrun as (m' & Hrun & Hrm).
  rewrite (bfs_loop_fuel_le _ _ _ _ _ _ _ Hle Hrun). simpl.
  injection Hrm as <- <-. exact Hx.
Qed.

(** A search whose results survive more fuel has at most one result. *)
Lemma search_functional
    (search : nat → Args → Q → outcome (ScheduleResult * Args)) :
  (∀ fuel fuel' a timeLimit x, (fuel ≤ fuel')%nat →
     search fuel a timeLimit = Done x → search fuel' a timeLimit = Done x) →
  ∀ fuel1 fuel2 a timeLimit x1 x2,
    search fuel1 a timeLimit = Done x1 →
    search fuel2 a timeLimit = Done x2 → x1 = x2.
Proof.
  intros Hmono fuel1 fuel2 a timeLimit x1 x2 H1 H2.
  apply (Hmono _ (fuel1 `max` fuel2)%nat) in H1; [|lia].
  apply (Hmono _ (fuel1 `max` fuel2)%nat) in H2; [|lia].
  congruence.
Qed.

End Determinism.

(** C9: for each strategy, roster, assignment and time limit, any two runs
    of the schedule search that return - whatever fuel the model gave them -
    return the same damage and the same sequence, and both hand the roster
    and the assignment back unchanged; the depth-first search moreover
    leaves its availability buffer and its cast stack as they were at the
    start, so nothing of a run is left behind. *)
Theorem schedule_search_deterministic a timeLimit :
  (∀ fuel1 fuel2 r1 a1 r2 a2,
     Dfs.findBestDamageSchedule fuel1 a timeLimit = Done (r1, a1) →
     Dfs.findBestDamageSchedule fuel2 a timeLimit = Done (r2, a2) →
     r1 = r2 ∧ a1 = a ∧ a2 = a)
  ∧ (∀ K fuel1 fuel2 r1 a1 r2 a2,
       Bfs.search K fuel1 a timeLimit = Done (r1, a1) →
       Bfs.search K fuel2 a timeLimit = Done (r2, a2) →
       r1 = r2 ∧ a1 = a ∧ a2 = a)
  ∧ (∀ fuel1 fuel2 r1 a1 r2 a2,
       Dfs.findBestDamageSchedule_cpp fuel1 a timeLimit = Done (r1, a1) →
       Dfs.findBestDamageSchedule_cpp fuel2 a timeLimit = Done (r2, a2) →
       r1 = r2 ∧ a1 = a ∧ a2 = a)
  ∧ (∀ eps fuel m,
       Dfs.dfs eps timeLimit
         (effectiveRecast (arg_skills a) (arg_gearCombo a)) fuel 0 0
         (Dfs.initial a) = Done m →
       DfsSpec.frame (Dfs.initial a) m).
Proof.
  split_and!.
  - intros fuel1 fuel2 r1 a1 r2 a2 H1 H2.
    pose proof (search_functional (Dfs.search 0) (dfs_search_fuel_le 0)
                  _ _ _ _ _ _ H1 H2) as [= -> ->].
    apply dfs_search_post in H1 as (-> & _). done.
  - intros K fuel1 fuel2 r1 a1 r2 a2 H1 H2.
    pose proof (search_functional (Bfs.search K) (bfs_search_fuel_le K)
                  _ _ _ _ _ _ H1 H2) as [= -> ->].
    apply bfs_search_run in H1 as (m & H1 & ->).
    apply bfs_run_post in H1 as (-> & _). done.
  - intros fuel1 fuel2 r1 a1 r2 a2 H1 H2.
    pose proof (search_functional (Dfs.search Dfs.EPS)
                  (dfs_search_fuel_le Dfs.EPS) _ _ _ _ _ _ H1 H2)
      as [= -> ->].
    apply dfs_search_post in H1 as (-> & _). done.
  - intros eps fuel m Hrun. by eapply dfs_frame.
Qed.

Lemma schedule_search_deterministic_witness :
  ∃ r1 r2,
    Dfs.findBestDamageSchedule 3 (Spec.args_of Inputs.scenarioA [0]) 11
    = Done (r1, Spec.args_of Inputs.scenarioA [0])
    ∧ Dfs.findBestDamageSchedule 7 (Spec.args_of Inputs.scenarioA [0]) 11
      = Done (r2, Spec.args_of Inputs.scenarioA [0])
    ∧ r1 = r2.
Proof.
  do 2 eexists. split; [by vm_compute|]. split; [by vm_compute|].
  eapply (proj1 (schedule_search_deterministic
                   (Spec.args_of Inputs.scenarioA [0]) 11) 3%nat 7%nat);
    by vm_compute.
Defined.

(** ** Termination of the bounded-frontier search *)

Section BfsTotal.
Import Schedule BfsSpec.

Variable K : nat.
Variable timeLimit : Q.
Variable cooldown : list (option Q).
Variable skills : list Skill.
Variable cmin : Q.

Hypothesis cmin_pos : 0 < cmin.
Hypothesis durations : Forall (fun skill => cmin <= castTimeS skill) skills.
Hypothesis cooldown_defined : Forall is_Some cooldown.
Hypothesis cooldown_length : length cooldown = length skills.

Local Abbreviation expand := (Bfs.expand K timeLimit cooldown).
Local Abbreviation loop := (Bfs.loop K timeLimit cooldown).
Local Abbreviation within := (within skills timeLimit cmin).
Local Abbreviation weight := (weight skills).

(** One expansion step returns; it adds at most one state, and a state it
    adds has a smaller budget. *)
Lemma expand_total state i m k :
  arg_skills (Bfs.args m) = skills → within k state →
  (i < length skills)%nat →
  ∃ m' added,
    expand state i m = Done m'
    ∧ Bfs.args m' = Bfs.args m
    ∧ Bfs.queue m' = Bfs.queue m ++ added
    ∧ (length added ≤ 1)%nat
    ∧ Forall (fun s' => ∃ k', k = S k' ∧ within k' s') added.
Proof.
  intros Hsk [Hlen Hk] Hi.
  destruct (lookup_lt_is_Some_2 skills i Hi) as [skill Hs].
  destruct (lookup_lt_is_Some_2 (Bfs.nextAvail state) i) as [a Ha]; [lia|].
  destruct (lookup_lt_is_Some_2 cooldown i) as [ocd Hocd]; [lia|].
  assert (is_Some ocd) as [cd ->]
    by (eapply Forall_lookup_1 in cooldown_defined; eauto).
  assert (Hdur : cmin <= castTimeS skill)
    by (eapply Forall_lookup_1 in durations; eauto).
  unfold Bfs.expand, read, read_number. rewrite Hsk, Hs, Ha, Hocd. simpl.
  destruct (Qlt_le_dec timeLimit a).
  { exists m, []. rewrite app_nil_r. split_and!; try done. simpl. lia. }
  destruct (Qlt_le_dec timeLimit _) as [|Hfit].
  { exists m, []. rewrite app_nil_r. split_and!; try done. simpl. lia. }
  set (castEnd := Qmax (Bfs.currentTime state) a + castTimeS skill) in *.
  set (s' := {| Bfs.currentTime := castEnd;
                Bfs.damageSoFar := Bfs.damageSoFar state + damage skill;
                Bfs.nextAvail := <[i := castEnd + cd]> (Bfs.nextAvail state);
                Bfs.castSequence :=
                  Bfs.castSequence state ++ [skillName skill] |}).
  pose proof (Q.le_max_l (Bfs.currentTime state) a) as Hmax.
  assert (Hs' : ∃ k', k = S k' ∧ within k' s').
  { destruct k as [|k'].
    - change (inject_Z (Z.of_nat 0)) with 0 in Hk. subst castEnd. lra.
    - exists k'. split; [done|]. split.
      + subst s'. simpl. by rewrite length_insert.
      + rewrite inject_nat_S in Hk. subst s' castEnd. simpl. lra. }
  destruct (retain_cases K s' m)
    as (Hargs & _ & _ & [(Hq & _)|[(Hq & _)|(Hq & _)]]).
  - exists (Bfs.retain K s' m), [s']. split_and!; try done.
    by constructor.
  - exists (Bfs.retain K s' m), [s']. split_and!; try done.
    by constructor.
  - exists (Bfs.retain K s' m), []. rewrite app_nil_r.
    split_and!; try done. simpl. lia.
Qed.

Lemma expansion_total state k idx : ∀ m,
  arg_skills (Bfs.args m) = skills → within k state →
  Forall (fun i => (i < length skills)%nat) idx →
  ∃ m' added,
    for_each (expand state) idx m = Done m'
    ∧ Bfs.args m' = Bfs.args m
    ∧ Bfs.queue m' = Bfs.queue m ++ added
    ∧ (length added ≤ length idx)%nat
    ∧ Forall (fun s' => ∃ k', k = S k' ∧ within k' s') added.
Proof.
  induction idx as [|i idx IH]; intros m Hsk Hst Hidx.
  { exists m, []. rewrite app_nil_r. split_and!; try done. }
  apply Forall_cons in Hidx as [Hi Hidx].
  destruct (expand_total state i m k Hsk Hst Hi)
    as (m1 & add1 & Hrun1 & Ha1 & Hq1 & Hl1 & Hw1).
  destruct (IH m1) as (m' & add2 & Hrun2 & Ha2 & Hq2 & Hl2 & Hw2);
    [congruence | done | done |].
  exists m', (add1 ++ add2). simpl. rewrite Hrun1. simpl. split_and!.
  - done.
  - congruence.
  - by rewrite Hq2, Hq1, app_assoc.
  - rewrite length_app. lia.
  - by apply Forall_app.
Qed.

Lemma weight_pos k : (1 ≤ weight k)%nat.
Proof.
  unfold BfsSpec.weight. induction k as [|k IH]; simpl; lia.
Qed.

Lemma weight_S k :
  (length skills * weight k + 1 ≤ weight (S k))%nat.
Proof.
  pose proof (weight_pos k). unfold BfsSpec.weight in *. simpl. lia.
Qed.

(** The loop returns once its fuel covers the weights of the queue. *)
Lemma loop_total fuel : ∀ m ks,
  arg_skills (Bfs.args m) = skills →
  Forall2 (fun s k => within k s) (Bfs.queue m) ks →
  (sum_list_with weight ks ≤ fuel)%nat →
  ∃ m', loop fuel m = Done m'.
Proof.
  induction fuel as [|fuel IH]; intros m ks Hsk Hq Hfuel.
  { destruct ks as [|k ks].
    - apply Forall2_nil_inv_r in Hq. simpl. rewrite Hq. eauto.
    - simpl in Hfuel. pose proof (weight_pos k). lia. }
  simpl. destruct (Bfs.queue m) as [|state rest] eqn:Hqm; [eauto|].
  apply Forall2_cons_inv_l in Hq as (k & ks' & Hst & Hrest & ->).
  simpl in Hfuel.
  set (ma := Bfs.count_expansion (Bfs.set_queue rest m)).
  set (mb := if Qlt_le_dec (Bfs.bestDamage m) (Bfs.damageSoFar state)
             then Bfs.set_best (Bfs.damageSoFar state)
                    (Bfs.castSequence state) ma
             else ma).
  assert (Hb : Bfs.args mb = Bfs.args m ∧ Bfs.queue mb = rest).
  { subst mb ma. by destruct (Qlt_le_dec _ _). }
  destruct Hb as [Hab Hqb].
  destruct (expansion_total state k
              (seq 0 (length (arg_skills (Bfs.args mb)))) mb)
    as (mc & added & Hexp & Hac & Hqc & Hlen & Hadded);
    [congruence | done | |].
  { apply Forall_forall. intros i Hi. apply elem_of_seq in Hi.
    rewrite Hab, Hsk in Hi. lia. }
  rewrite Hexp. simpl.
  rewrite length_seq, Hab, Hsk in Hlen.
  pose proof (weight_pos k) as Hwk.
  destruct added as [|s1 added'].
  - apply (IH mc ks'); [congruence | | lia].
    by rewrite Hqc, Hqb, app_nil_r.
  - pose proof Hadded as Hall.
    apply Forall_cons in Hadded as [(k' & -> & _) _].
    apply (IH mc (ks' ++ replicate (length (s1 :: added')) k')).
    + congruence.
    + rewrite Hqc, Hqb. apply Forall2_app; [done|].
      apply Forall2_replicate_r; [done|].
      eapply Forall_impl; [exact Hall|].
      intros s (k'' & [= <-] & Hw). exact Hw.
    + rewrite sum_list_with_app.
      assert (sum_list_with weight (replicate (length (s1 :: added')) k')
              = (length (s1 :: added') * weight k')%nat) as ->.
      { clear. induction (length (s1 :: added')) as [|j IHj]; simpl; lia. }
      pose proof (weight_S k').
      assert (length (s1 :: added') * weight k'
              ≤ length skills * weight k')%nat
        by (apply Nat.mul_le_mono_r; lia).
      lia.
Qed.

End BfsTotal.

Section BfsSearchTotal.
Import Spec.

(** With positive cast durations and a modifier for every action, the
    bounded-frontier search returns. *)
Lemma bfs_run_total K skills gearCombo timeLimit :
  positive_durations skills → covers gearCombo skills →
  ∃ fuel r m,
    Bfs.run K fuel (args_of skills gearCombo) timeLimit = Done (r, m).
Proof.
  intros Hpos Hcov.
  destruct (positive_durations_bound _ Hpos) as (cmin & Hc & Hall).
  destruct (steps_exist (timeLimit - 0) cmin Hc) as (n & Hn).
  destruct (loop_total K timeLimit (effectiveRecast skills gearCombo) skills
              cmin Hc Hall (effectiveRecast_defined _ _ Hcov)
              (effectiveRecast_length _ _)
              (BfsSpec.weight skills n)
              (Bfs.initial (args_of skills gearCombo)) [n])
    as (m' & Hrun).
  - done.
  - constructor; [|constructor]. split; [|done]. simpl. by rewrite length_map.
  - simpl. lia.
  - exists (BfsSpec.weight skills n). unfold Bfs.run.
    change (arg_skills (args_of skills gearCombo)) with skills.
    change (arg_gearCombo (args_of skills gearCombo)) with gearCombo.
    rewrite Hrun. simpl. eauto.
Qed.

End BfsSearchTotal.

(** Both results are plans the guards accept, and the depth-first result
    bounds them all; a run that dropped nothing covers them all as well. *)
Lemma bounded_below_exhaustive a timeLimit K fuel1 fuel2 r1 a1 r2 m2 :
  Dfs.findBestDamageSchedule fuel1 a timeLimit = Done (r1, a1) →
  Bfs.run K fuel2 a timeLimit = Done (r2, m2) →
  totalDamage r2 <= totalDamage r1
  ∧ (Bfs.evictions m2 = 0%nat ∧ Bfs.prunes m2 = 0%nat →
     totalDamage r2 == totalDamage r1).
Proof.
  intros Hdfs Hbfs.
  apply dfs_search_post in Hdfs as (_ & Hmax1 & plan1 & Hfeas1 & Hd1 & _).
  apply bfs_run_post in Hbfs as (_ & (plan2 & Hfeas2 & Hd2 & _) & Hmax2).
  simpl in *.
  assert (Hle : totalDamage r2 <= totalDamage r1).
  { rewrite Hd2. by apply Hmax1. }
  split; [done|]. intros [Hev Hpr].
  apply Qle_antisym; [done|]. rewrite Hd1. by apply Hmax2.
Qed.



(** * Further properties of the code *)

(** ** The enumeration has no repetition of its own *)

Section GearDistinct.
Import Gear.

Lemma cartesian_NoDup options :
  Forall NoDup options → NoDup (cartesian options).
Proof.
  induction 1 as [|opts rest Hopts _ IH]; simpl.
  - apply NoDup_singleton.
  - apply NoDup_bind; [| |done].
    + intros x1 x2 y _ _ H1 H2.
      apply list_elem_of_fmap in H1 as (c1 & -> & _).
      apply list_elem_of_fmap in H2 as (c2 & [= -> _] & _). done.
    + intros x _. by apply (NoDup_fmap_2 (cons x)).
Qed.

End GearDistinct.

(** X1: when no action lists a modifier option twice, no assignment is
    enumerated twice, in the TypeScript and in the C++ enumeration. *)
Theorem gear_choices_distinct (skills : list Skill) :
  Forall (fun skill => NoDup (possibleSkillGear skill)) skills →
  NoDup (Gear.generateAllGearChoices skills)
  ∧ NoDup (Gear.generateAllGearChoices_cpp skills).
Proof.
  intros Hnd. destruct (gear_choices_eq skills) as [-> ->].
  assert (NoDup (Gear.cartesian (map possibleSkillGear skills))).
  { apply cartesian_NoDup. by apply Forall_fmap. }
  done.
Qed.

Lemma gear_choices_distinct_witness :
  Forall (fun skill => NoDup (possibleSkillGear skill)) Inputs.scenarioA
  ∧ NoDup (Gear.generateAllGearChoices Inputs.scenarioA).
Proof.
  assert (H : Forall (fun skill => NoDup (possibleSkillGear skill))
                Inputs.scenarioA).
  { constructor; [apply NoDup_singleton | constructor]. }
  split; [done|]. exact (proj1 (gear_choices_distinct Inputs.scenarioA H)).
Defined.

(** ** A window shorter than every cast *)

Section TooShort.
Import Spec.

Lemma dfs_too_short eps fuel a timeLimit :
  Forall (fun skill => timeLimit + eps < castTimeS skill) (arg_skills a) →
  Dfs.search eps (S fuel) a timeLimit
  = Done ({| totalDamage := 0; sequence := [] |}, a).
Proof.
  intros Hshort. unfold Dfs.search. simpl Dfs.dfs.
  destruct (Qlt_le_dec 0 0) as [Habs|_]; [lra|].
  rewrite for_each_idle; [done|].
  intros i Hi. apply elem_of_seq in Hi. simpl in Hi.
  destruct (lookup_lt_is_Some_2 (arg_skills a) i) as [skill Hs]; [lia|].
  unfold Dfs.try_cast, read. simpl. rewrite Hs, initial_ready by lia. simpl.
  destruct (Qlt_le_dec timeLimit 0); [done|].
  destruct (Qlt_le_dec (timeLimit + eps) _) as [|Hfit]; [done|].
  eapply Forall_lookup_1 in Hshort; [|exact Hs]. simpl in Hshort.
  pose proof (Q.le_max_l 0 0). lra.
Qed.

Lemma bfs_too_short K fuel a timeLimit :
  Forall (fun skill => timeLimit < castTimeS skill) (arg_skills a) →
  Bfs.search K (S fuel) a timeLimit
  = Done ({| totalDamage := 0; sequence := [] |}, a).
Proof.
  intros Hshort. unfold Bfs.search, Bfs.run. simpl Bfs.loop.
  destruct (Qlt_le_dec 0 0) as [Habs|_]; [lra|].
  rewrite for_each_idle.
  - simpl. by destruct fuel.
  - intros i Hi. apply elem_of_seq in Hi. simpl in Hi.
    destruct (lookup_lt_is_Some_2 (arg_skills a) i) as [skill Hs]; [lia|].
    unfold Bfs.expand, read. simpl. rewrite Hs, initial_ready by lia. simpl.
    destruct (Qlt_le_dec timeLimit 0); [done|].
    destruct (Qlt_le_dec timeLimit (_ + _)) as [|Hfit]; [done|].
    eapply Forall_lookup_1 in Hshort; [|exact Hs]. simpl in Hshort.
    pose proof (Q.le_max_l 0 0). lra.
Qed.

End TooShort.



(** ** The recorded best is positive or still the initial one *)

Section BestSign.
Import More.

Lemma dfs_best_sign eps timeLimit cooldown fuel : ∀ cur tot m m',
  Dfs.dfs eps timeLimit cooldown fuel cur tot m = Done m' →
  positive_or_initial (Dfs.bestDamageSoFar m) (Dfs.bestSequenceSoFar m) →
  positive_or_initial (Dfs.bestDamageSoFar m') (Dfs.bestSequenceSoFar m').
Proof.
  induction fuel as [|fuel IH]; intros cur tot m m' Hrun Hm; [done|].
  simpl in Hrun.
  set (m1 := if Qlt_le_dec (Dfs.bestDamageSoFar m) tot
             then Dfs.record_best tot m else m) in *.
  assert (Hm1 : positive_or_initial (Dfs.bestDamageSoFar m1)
                  (Dfs.bestSequenceSoFar m1)).
  { subst m1. destruct (Qlt_le_dec _ _) as [Hlt|]; [|done]. left. simpl.
    destruct Hm as [?|[Hz _]]; [lra|]. rewrite Hz in Hlt. done. }
  revert Hm1.
  eapply (for_each_preserves
            (fun m m' =>
               positive_or_initial (Dfs.bestDamageSoFar m)
                 (Dfs.bestSequenceSoFar m) →
               positive_or_initial (Dfs.bestDamageSoFar m')
                 (Dfs.bestSequenceSoFar m')));
    [done | by auto | | exact Hrun].
  intros i ma mb _ Hbody Hma.
  apply try_cast_inv in Hbody
    as [[-> _]|(skill & c & cd & m2 & _ & _ & _ & _ & Hrec & ->)]; [done|].
  simpl. by eapply IH.
Qed.

Lemma bfs_best_sign K timeLimit cooldown fuel : ∀ m m',
  Bfs.loop K timeLimit cooldown fuel m = Done m' →
  positive_or_initial (Bfs.bestDamage m) (Bfs.bestSequence m) →
  positive_or_initial (Bfs.bestDamage m') (Bfs.bestSequence m').
Proof.
  induction fuel as [|fuel IH]; intros m m' Hrun Hm; simpl in Hrun.
  { destruct (Bfs.queue m); [|done]. by injection Hrun as <-. }
  destruct (Bfs.queue m) as [|state rest]; [by injection Hrun as <-|].
  apply bind_Done in Hrun as (mc & Hexp & Hloop).
  apply (IH mc m' Hloop).
  apply expansion_grows in Hexp as (_ & -> & -> & _).
  destruct (Qlt_le_dec _ _) as [Hlt|]; [|done]. left. simpl in *.
  destruct Hm as [?|[Hz _]]; [lra|]. rewrite Hz in Hlt. done.
Qed.

Lemma sign_zero_iff best (seq : list string) plan skills :
  positive_or_initial best seq →
  best = Schedule.plan_damage skills plan →
  seq = Schedule.names skills plan →
  0 <= best ∧ (best == 0 ↔ seq = []).
Proof.
  intros Hsign Hd Hq. split.
  - destruct Hsign as [?|[-> _]]; lra.
  - split.
    + intros Hz. destruct Hsign as [?|[_ ?]]; [lra | done].
    + intros Hnil. rewrite Hq in Hnil. destruct plan; [|done].
      rewrite Hd. reflexivity.
Qed.

End BestSign.

(** X3: the damage a search returns is never negative, whatever the damage
    values of the roster, and it is zero exactly when the returned sequence
    is empty: a best is recorded only when it strictly exceeds the initial
    zero. *)
Theorem zero_damage_iff_empty_sequence a timeLimit :
  (∀ fuel r a',
     Dfs.findBestDamageSchedule fuel a timeLimit = Done (r, a') →
     0 <= totalDamage r ∧ (totalDamage r == 0 ↔ sequence r = []))
  ∧ (∀ K fuel r a',
       Bfs.search K fuel a timeLimit = Done (r, a') →
       0 <= totalDamage r ∧ (totalDamage r == 0 ↔ sequence r = []))
  ∧ (∀ fuel r a',
       Dfs.findBestDamageSchedule_cpp fuel a timeLimit = Done (r, a') →
       0 <= totalDamage r ∧ (totalDamage r == 0 ↔ sequence r = [])).
Proof.
  assert (Hdfs : ∀ eps fuel r a',
    Dfs.search eps fuel a timeLimit = Done (r, a') →
    0 <= totalDamage r ∧ (totalDamage r == 0 ↔ sequence r = [])).
  { intros eps fuel r a' Hrun.
    pose proof (dfs_search_post _ _ _ _ _ _ Hrun)
      as (_ & _ & plan & _ & Hd & Hq).
    unfold Dfs.search in Hrun.
    apply bind_Done in Hrun as (m & Hrun & [= <- <-]). simpl in *.
    apply dfs_best_sign in Hrun; [|by right].
    by eapply sign_zero_iff. }
  split_and!; [apply Hdfs | | apply Hdfs].
  intros K fuel r a' Hrun.
  apply bfs_search_run in Hrun as (m & Hrun & _).
  pose proof (bfs_run_post _ _ _ _ _ _ Hrun) as (_ & (plan & _ & Hd & Hq) & _).
  unfold Bfs.run in Hrun.
  apply bind_Done in Hrun as (m' & Hrun & [= <- <-]). simpl in *.
  apply bfs_best_sign in Hrun; [|by right].
  by eapply sign_zero_iff.
Qed.

Lemma zero_damage_iff_empty_sequence_witness :
  0 <= 20 ∧ (20 == 0 ↔ ["A"; "A"]%string = []).
Proof.
  exact (proj1 (zero_damage_iff_empty_sequence
                  (Spec.args_of Inputs.scenarioA [0]) 11) 3%nat
           {| totalDamage := 20; sequence := ["A"; "A"]%string |}
           (Spec.args_of Inputs.scenarioA [0]) eq_refl).
Defined.

(** ** More time, more tolerance *)

Section Widening.
Import Schedule.

Lemma accepted_widen timeLimit eps timeLimit' eps' c :
  timeLimit <= timeLimit' → timeLimit + eps <= timeLimit' + eps' →
  accepted timeLimit eps c → accepted timeLimit' eps' c.
Proof. intros H1 H2 [Ha Hb]. split; lra. Qed.

(** A depth-first result bounds the result of any depth-first search whose
    guards are at least as strict. *)
Lemma dfs_search_widen eps eps' fuel fuel' a timeLimit timeLimit' r a1 r' a2 :
  timeLimit <= timeLimit' → timeLimit + eps <= timeLimit' + eps' →
  Dfs.search eps fuel a timeLimit = Done (r, a1) →
  Dfs.search eps' fuel' a timeLimit' = Done (r', a2) →
  totalDamage r <= totalDamage r'.
Proof.
  intros H1 H2 Hrun Hrun'.
  apply dfs_search_post in Hrun as (_ & _ & plan & (cs & nd & Hp & Hok) & -> & _).
  apply dfs_search_post in Hrun' as (_ & Hmax & _).
  apply Hmax. exists cs, nd. split; [done|].
  eapply Forall_impl; [exact Hok|]. intros c. by apply accepted_widen.
Qed.

End Widening.

(** X4: a longer window never gives less damage: for time limits
    [timeLimit <= timeLimit'], the damage the depth-first search returns
    for [timeLimit] is at most the damage it returns for [timeLimit'], in
    [main.ts] and in [main.cpp]. *)
Theorem more_time_no_less_damage a timeLimit timeLimit' :
  timeLimit <= timeLimit' →
  (∀ fuel fuel' r a1 r' a2,
     Dfs.findBestDamageSchedule fuel a timeLimit = Done (r, a1) →
     Dfs.findBestDamageSchedule fuel' a timeLimit' = Done (r', a2) →
     totalDamage r <= totalDamage r')
  ∧ (∀ fuel fuel' r a1 r' a2,
       Dfs.findBestDamageSchedule_cpp fuel a timeLimit = Done (r, a1) →
       Dfs.findBestDamageSchedule_cpp fuel' a timeLimit' = Done (r', a2) →
       totalDamage r <= totalDamage r').
Proof.
  intros Hle. split; intros fuel fuel' r a1 r' a2;
    apply dfs_search_widen; lra.
Qed.

Lemma more_time_no_less_damage_witness :
  6 <= 11 ∧ 10 <= 20.
Proof.
  assert (H : 6 <= 11) by (by vm_compute).
  split; [done|].
  exact (proj1 (more_time_no_less_damage
                  (Spec.args_of Inputs.scenarioA [0]) 6 11 H) 3%nat 3%nat
           {| totalDamage := 10; sequence := ["A"]%string |} _
           {| totalDamage := 20; sequence := ["A"; "A"]%string |} _
           eq_refl eq_refl).
Defined.

(** X5: on the same input the depth-first search of [main.cpp] returns at
    least the damage of the depth-first search of [main.ts], which returns
    at least the damage of the bounded-frontier search: the tolerance only
    admits more casts. *)
Theorem tolerance_admits_more a timeLimit fuel1 fuel2 r1 a1 r2 a2 :
  Dfs.findBestDamageSchedule fuel1 a timeLimit = Done (r1, a1) →
  Dfs.findBestDamageSchedule_cpp fuel2 a timeLimit = Done (r2, a2) →
  totalDamage r1 <= totalDamage r2
  ∧ ∀ K fuel3 r3 a3,
      Bfs.search K fuel3 a timeLimit = Done (r3, a3) →
      totalDamage r3 <= totalDamage r2.
Proof.
  intros H1 H2.
  assert (Hle : totalDamage r1 <= totalDamage r2).
  { eapply (dfs_search_widen 0 Dfs.EPS); [| |exact H1|exact H2].
    - lra.
    - assert (0 <= Dfs.EPS) by (by vm_compute). lra. }
  split; [done|]. intros K fuel3 r3 a3 H3.
  apply bfs_search_run in H3 as (m3 & H3 & _).
  destruct (bounded_below_exhaustive _ _ _ _ _ _ _ _ _ H1 H3) as [Hb _]. lra.
Qed.

Lemma tolerance_admits_more_witness :
  0 <= 7.
Proof.
  exact (proj1 (tolerance_admits_more (Spec.args_of Inputs.overhang [0]) 1
                  2 2 {| totalDamage := 0; sequence := [] |} _
                  {| totalDamage := 7; sequence := ["C"]%string |} _
                  eq_refl eq_refl)).
Defined.

(** ** Shorter cooldowns *)

Section Cooler.
Import Schedule More.

Variable skills : list Skill.

Lemma earlier_refl nd : earlier nd nd.
Proof.
  split; [lra|]. apply Forall_Forall2_diag, Forall_forall. intros. lra.
Qed.

(** With cooldowns that are no longer, a cast made from a node that is no
    later starts, ends and frees the action no later. *)
Lemma cast_at_earlier cd cd' i nd nd' c n1 :
  cooler cd' cd → earlier nd' nd →
  cast_at skills cd i nd = Some (c, n1) →
  ∃ c' n1', cast_at skills cd' i nd' = Some (c', n1')
            ∧ earlier n1' n1
            ∧ availableAt c' <= availableAt c
            ∧ castEnd c' <= castEnd c.
Proof.
  intros Hcd [Hnow Hav]. unfold cast_at.
  destruct (skills !! i) as [skill|]; [|done]. simpl.
  destruct (avail nd !! i) as [a|] eqn:Ha; [|done]. simpl.
  destruct (cd !! i) as [[x|]|] eqn:Hx; [|done|done]. simpl.
  intros [= <- <-].
  destruct (Forall2_lookup_r _ _ _ _ _ Hav Ha) as (a' & Ha' & Hle).
  destruct (Forall2_lookup_r _ _ _ _ _ Hcd Hx)
    as (o' & Hx' & x' & x0 & -> & [= <-] & Hxle).
  rewrite Ha', Hx'. simpl.
  pose proof (Q.max_le_compat _ _ _ _ Hnow Hle) as Hmax.
  eexists _, _. split; [reflexivity|]. simpl. split_and!; try lra.
  split; simpl; [lra|]. apply Forall2_insert; [done|]. lra.
Qed.

Lemma feasible_earlier cd cd' timeLimit eps plan : ∀ nd nd',
  cooler cd' cd → earlier nd' nd →
  feasible_from skills cd (accepted timeLimit eps) plan nd →
  feasible_from skills cd' (accepted timeLimit eps) plan nd'.
Proof.
  induction plan as [|i plan IH]; intros nd nd' Hcd Hnd Hfeas.
  { apply feasible_from_nil. }
  apply feasible_from_cons in Hfeas as (c & n1 & Hc & [Ha He] & Hrest).
  destruct (cast_at_earlier _ _ _ _ _ _ _ Hcd Hnd Hc)
    as (c' & n1' & Hc' & Hn1 & Hav & Hend).
  apply feasible_from_cons. exists c', n1'. split_and!; [done | | by eauto].
  split; lra.
Qed.

(** A larger modifier on a cooldown that is not negative gives a cooldown
    that is no longer. *)
Lemma effectiveRecast_cooler gearCombo gearCombo' :
  Forall (fun skill => 0 <= recastTimeS skill) skills →
  Spec.covers gearCombo skills →
  Forall2 Qle gearCombo gearCombo' →
  cooler (effectiveRecast skills gearCombo')
    (effectiveRecast skills gearCombo).
Proof.
  intros Hpos Hcov Hle. apply Forall2_same_length_lookup. split.
  { by rewrite !effectiveRecast_length. }
  intros i o' o Ho' Ho. unfold effectiveRecast in *.
  rewrite list_lookup_imap in Ho', Ho.
  destruct (skills !! i) as [skill|] eqn:Hs; [|done]. simpl in *.
  eapply Forall_lookup_1 in Hpos; [|exact Hs]. simpl in Hpos.
  destruct (lookup_lt_is_Some_2 gearCombo i) as [x Hx].
  { apply lookup_lt_Some in Hs. unfold Spec.covers in Hcov. lia. }
  destruct (Forall2_lookup_l _ _ _ _ _ Hle Hx) as (x' & Hx' & Hxx).
  rewrite Hx in Ho. rewrite Hx' in Ho'.
  injection Ho as <-. injection Ho' as <-.
  eexists _, _. split_and!; [done | done |].
  assert (H100 : x / 100 <= x' / 100).
  { unfold Qdiv. apply Qmult_le_compat_r; [done | by vm_compute]. }
  rewrite !(Qmult_comm (recastTimeS skill)).
  apply Qmult_le_compat_r; lra.
Qed.

End Cooler.

(** X6: a larger cooldown reduction never gives less damage.  For base
    cooldowns that are not negative and assignments [gearCombo <=
    gearCombo'] position by position, the depth-first search returns for
    [gearCombo'] at least the damage it returns for [gearCombo]: every
    sequence accepted with the longer cooldowns is accepted, cast by cast no
    later, with the shorter ones. *)
Theorem stronger_modifier_no_less_damage skills gearCombo gearCombo'
    timeLimit :
  Forall (fun skill => 0 <= recastTimeS skill) skills →
  Spec.covers gearCombo skills →
  Forall2 Qle gearCombo gearCombo' →
  (∀ fuel fuel' r a1 r' a2,
     Dfs.findBestDamageSchedule fuel (Spec.args_of skills gearCombo)
       timeLimit = Done (r, a1) →
     Dfs.findBestDamageSchedule fuel' (Spec.args_of skills gearCombo')
       timeLimit = Done (r', a2) →
     totalDamage r <= totalDamage r')
  ∧ (∀ fuel fuel' r a1 r' a2,
       Dfs.findBestDamageSchedule_cpp fuel (Spec.args_of skills gearCombo)
         timeLimit = Done (r, a1) →
       Dfs.findBestDamageSchedule_cpp fuel' (Spec.args_of skills gearCombo')
         timeLimit = Done (r', a2) →
       totalDamage r <= totalDamage r').
Proof.
  intros Hpos Hcov Hle.
  pose proof (effectiveRecast_cooler skills _ _ Hpos Hcov Hle) as Hcool.
  assert (Hgen : ∀ eps fuel fuel' r a1 r' a2,
    Dfs.search eps fuel (Spec.args_of skills gearCombo) timeLimit
      = Done (r, a1) →
    Dfs.search eps fuel' (Spec.args_of skills gearCombo') timeLimit
      = Done (r', a2) →
    totalDamage r <= totalDamage r').
  { intros eps fuel fuel' r a1 r' a2 Hrun Hrun'.
    apply dfs_search_post in Hrun as (_ & _ & plan & Hfeas & -> & _).
    apply dfs_search_post in Hrun' as (_ & Hmax & _). simpl in *.
    apply Hmax. eapply feasible_earlier; [exact Hcool | | exact Hfeas].
    apply earlier_refl. }
  split; intros fuel fuel' r a1 r' a2; apply Hgen.
Qed.

Lemma stronger_modifier_no_less_damage_witness :
  Forall (fun skill => 0 <= recastTimeS skill) Inputs.near_tie
  ∧ Spec.covers [1] Inputs.near_tie
  ∧ Forall2 Qle [1] [50]
  ∧ ∃ r r',
      Dfs.findBestDamageSchedule 3 (Spec.args_of Inputs.near_tie [1]) 8
      = Done (r, Spec.args_of Inputs.near_tie [1])
      ∧ Dfs.findBestDamageSchedule 3 (Spec.args_of Inputs.near_tie [50]) 8
        = Done (r', Spec.args_of Inputs.near_tie [50])
      ∧ totalDamage r <= totalDamage r'.
Proof.
  assert (H1 : Forall (fun skill => 0 <= recastTimeS skill) Inputs.near_tie)
    by (repeat constructor; by vm_compute).
  assert (H2 : Spec.covers [1] Inputs.near_tie)
    by (unfold Spec.covers; simpl; lia).
  assert (H3 : Forall2 Qle [1] [50]) by (repeat constructor; by vm_compute).
  split_and!; [done | done | done |].
  do 2 eexists. split; [by vm_compute|]. split; [by vm_compute|].
  eapply (proj1 (stronger_modifier_no_less_damage Inputs.near_tie [1] [50] 8
                   H1 H2 H3) 3%nat 3%nat); by vm_compute.
Defined.

(** ** No read past the end of an array *)

Section Defined.
Import More.

Lemma for_each_defined {A M} (Inv : M → Prop) (body : A → M → outcome M) xs :
  (∀ x m, x ∈ xs → Inv m → defined Inv (body x m)) →
  ∀ m, Inv m → defined Inv (for_each body xs m).
Proof.
  induction xs as [|x xs IH]; intros Hb m Hm; [done|].
  simpl. pose proof (Hb x m (list_elem_of_here _ _) Hm) as Hx.
  destruct (body x m) as [m1| |]; simpl in *; [|done|done].
  apply IH; [|done]. intros y m' Hy. apply Hb. by right.
Qed.

Lemma defined_weaken {M} (Inv Inv' : M → Prop) o :
  (∀ m, Inv m → Inv' m) → defined Inv o → defined Inv' o.
Proof. intros H. destruct o; simpl; auto. Qed.

Section Dfs.

Variable eps timeLimit : Q.
Variable cooldown : list (option Q).
Variable skills : list Skill.
Hypothesis cooldown_defined : Forall is_Some cooldown.
Hypothesis cooldown_length : length cooldown = length skills.

(** From a memory whose arrays have one entry per skill, a depth-first call
    never meets an undefined value. *)
Lemma dfs_defined fuel : ∀ cur tot m,
  DfsSpec.well_sized skills m →
  defined (DfsSpec.well_sized skills)
    (Dfs.dfs eps timeLimit cooldown fuel cur tot m).
Proof.
  induction fuel as [|fuel IH]; intros cur tot m Hm; [done|].
  simpl.
  set (m1 := if Qlt_le_dec (Dfs.bestDamageSoFar m) tot
             then Dfs.record_best tot m else m).
  assert (Hm1 : DfsSpec.well_sized skills m1)
    by (subst m1; by destruct (Qlt_le_dec _ _)).
  apply for_each_defined; [|done].
  intros i ma Hi Hwa. pose proof Hwa as (Hska & Hlena).
  rewrite (proj1 Hm1) in Hi. apply elem_of_seq in Hi.
  destruct (lookup_lt_is_Some_2 skills i) as [skill Hs]; [lia|].
  destruct (lookup_lt_is_Some_2 (Dfs.nextAvailTimes ma) i) as [a Ha]; [lia|].
  destruct (lookup_lt_is_Some_2 cooldown i) as [ocd Hocd]; [lia|].
  assert (is_Some ocd) as [cd ->]
    by (eapply Forall_lookup_1 in cooldown_defined; eauto).
  unfold Dfs.try_cast, read, read_number. rewrite Hska, Hs, Ha, Hocd. simpl.
  destruct (Qlt_le_dec timeLimit a); [done|].
  destruct (Qlt_le_dec (timeLimit + eps) _); [done|].
  set (m_in := Dfs.enter i _ _ ma).
  assert (Hin : DfsSpec.well_sized skills m_in).
  { subst m_in. split; simpl; [done|]. by rewrite length_insert. }
  specialize (IH (Qmax cur a + castTimeS skill) (tot + damage skill) m_in Hin).
  destruct (Dfs.dfs _ _ _ fuel _ _ m_in) as [m2| |] eqn:Hcall;
    simpl in *; [|done|done].
  eapply well_sized_frame; [|exact Hwa].
  eapply leave_enter_frame; [exact Ha|]. by eapply dfs_frame.
Qed.

End Dfs.

Lemma dfs_search_defined eps fuel skills gearCombo timeLimit :
  Spec.covers gearCombo skills →
  Dfs.search eps fuel (Spec.args_of skills gearCombo) timeLimit ≠ Undefined.
Proof.
  intros Hcov. unfold Dfs.search.
  pose proof (dfs_defined eps timeLimit (effectiveRecast skills gearCombo)
                skills (effectiveRecast_defined _ _ Hcov)
                (effectiveRecast_length _ _) fuel 0 0
                (Dfs.initial (Spec.args_of skills gearCombo))) as Hdef.
  change (arg_skills (Spec.args_of skills gearCombo)) with skills.
  change (arg_gearCombo (Spec.args_of skills gearCombo)) with gearCombo.
  destruct (Dfs.dfs _ _ _ fuel 0 0 _) as [m| |]; simpl; [done | done |].
  intros _. apply Hdef. split; [done|]. simpl. by rewrite length_map.
Qed.

Section Bfs.

Variable K : nat.
Variable timeLimit : Q.
Variable cooldown : list (option Q).
Variable skills : list Skill.
Hypothesis cooldown_defined : Forall is_Some cooldown.
Hypothesis cooldown_length : length cooldown = length skills.

Lemma expand_defined state i m :
  BfsSpec.sized skills m →
  length (Bfs.nextAvail state) = length skills →
  (i < length skills)%nat →
  defined (BfsSpec.sized skills) (Bfs.expand K timeLimit cooldown state i m).
Proof.
  intros [Hsk Hq] Hlen Hi.
  destruct (lookup_lt_is_Some_2 skills i Hi) as [skill Hs].
  destruct (lookup_lt_is_Some_2 (Bfs.nextAvail state) i) as [a Ha]; [lia|].
  destruct (lookup_lt_is_Some_2 cooldown i) as [ocd Hocd]; [lia|].
  assert (is_Some ocd) as [cd ->]
    by (eapply Forall_lookup_1 in cooldown_defined; eauto).
  unfold Bfs.expand, read, read_number. rewrite Hsk, Hs, Ha, Hocd. simpl.
  destruct (Qlt_le_dec timeLimit a); [done|].
  destruct (Qlt_le_dec timeLimit _); [done|].
  simpl.
  match goal with |- BfsSpec.sized _ (Bfs.retain _ ?s _) => set (s' := s) end.
  assert (Hs' : length (Bfs.nextAvail s') = length skills)
    by (subst s'; simpl; by rewrite length_insert).
  destruct (retain_cases K s' m)
    as (Hargs & _ & _ & [(Hq' & _)|[(Hq' & _)|(Hq' & _)]]);
    (split; [congruence|]); rewrite Hq'; try done;
    apply Forall_app; split; try done; by constructor.
Qed.

Lemma bfs_loop_defined fuel : ∀ m,
  BfsSpec.sized skills m →
  defined (fun _ => True) (Bfs.loop K timeLimit cooldown fuel m).
Proof.
  induction fuel as [|fuel IH]; intros m [Hsk Hq]; simpl.
  { by destruct (Bfs.queue m). }
  destruct (Bfs.queue m) as [|state rest] eqn:Hqm; [done|].
  apply Forall_cons in Hq as [Hstate Hrest].
  match goal with
  | |- defined _ (for_each _ _ ?mb ≫= _) => set (m1 := mb)
  end.
  assert (Hm1 : BfsSpec.sized skills m1).
  { subst m1. destruct (Qlt_le_dec _ _); by split. }
  pose proof (for_each_defined (BfsSpec.sized skills)
                (Bfs.expand K timeLimit cooldown state)
                (seq 0 (length (arg_skills (Bfs.args m1))))) as Hexp.
  specialize (Hexp (fun i ma Hi Hma => ltac:(
    apply expand_defined; [done | done |];
    apply elem_of_seq in Hi; rewrite (proj1 Hm1) in Hi; lia)) m1 Hm1).
  destruct (for_each _ _ m1) as [mc| |]; simpl in *; [|done|done].
  by apply IH.
Qed.

End Bfs.

Lemma bfs_search_defined K fuel skills gearCombo timeLimit :
  Spec.covers gearCombo skills →
  Bfs.search K fuel (Spec.args_of skills gearCombo) timeLimit ≠ Undefined.
Proof.
  intros Hcov. unfold Bfs.search, Bfs.run.
  pose proof (bfs_loop_defined K timeLimit (effectiveRecast skills gearCombo)
                skills (effectiveRecast_defined _ _ Hcov)
                (effectiveRecast_length _ _) fuel
                (Bfs.initial (Spec.args_of skills gearCombo))) as Hdef.
  change (arg_skills (Spec.args_of skills gearCombo)) with skills.
  change (arg_gearCombo (Spec.args_of skills gearCombo)) with gearCombo.
  destruct (Bfs.loop _ _ _ fuel _) as [m| |]; simpl; [done | done |].
  intros _. apply Hdef. split; [done|]. simpl.
  constructor; [|constructor]. simpl. by rewrite length_map.
Qed.

(** The optimiser is as defined as the searches it calls. *)
Lemma optimise_defined search tie skills timeLimit combos :
  (∀ g, g ∈ combos → search skills g timeLimit ≠ Undefined) →
  Setup.optimise search tie skills timeLimit combos ≠ Undefined.
Proof.
  intros Hsearch. unfold Setup.optimise, Setup.select.
  pose proof (for_each_defined (fun _ : Setup.Best => True)
                (Setup.consider search tie skills timeLimit) combos) as Hsel.
  specialize (Hsel (fun g b Hg _ => ltac:(
    unfold Setup.consider;
    specialize (Hsearch g Hg);
    destruct (search skills g timeLimit) as [r| |]; simpl; [|done|done];
    destruct (Qlt_le_dec _ _); [done|];
    destruct (tie _ _); [|done];
    by destruct (Setup.cheaper _ _))) Setup.start I).
  destruct (for_each _ combos Setup.start) as [b| |]; simpl in *; done.
Qed.

Lemma call_defined search skills gearCombo timeLimit :
  search (Spec.args_of skills gearCombo) timeLimit ≠ Undefined →
  Setup.call search skills gearCombo timeLimit ≠ Undefined.
Proof.
  unfold Setup.call, Spec.args_of.
  by destruct (search _ timeLimit) as [[r a]| |].
Qed.

(** Every enumerated assignment has one modifier per action. *)
Lemma gear_choices_cover skills g :
  g ∈ Gear.cartesian (map possibleSkillGear skills) → Spec.covers g skills.
Proof.
  intros Hg. apply cartesian_elem in Hg. apply Forall2_length in Hg.
  unfold Spec.covers. rewrite length_map in Hg. lia.
Qed.

End Defined.

(** X7: no array is read past its end.  A schedule search that is given a
    modifier for every action never meets an undefined value, whatever the
    fuel; and the optimisers never do on any roster, because every
    assignment they enumerate has one modifier per action. *)
Theorem no_read_past_the_end fuel skills timeLimit :
  (∀ gearCombo K, Spec.covers gearCombo skills →
     Dfs.findBestDamageSchedule fuel (Spec.args_of skills gearCombo) timeLimit
       ≠ Undefined
     ∧ Bfs.search K fuel (Spec.args_of skills gearCombo) timeLimit
       ≠ Undefined
     ∧ Dfs.findBestDamageSchedule_cpp fuel (Spec.args_of skills gearCombo)
         timeLimit ≠ Undefined)
  ∧ Setup.findBestDpsSetup fuel skills timeLimit ≠ Undefined
  ∧ Setup.findBestDpsSetup_queue fuel skills timeLimit ≠ Undefined
  ∧ Setup.findBestDpsSetup_cpp fuel skills timeLimit ≠ Undefined.
Proof.
  split_and!.
  - intros gearCombo K Hcov. split_and!.
    + by apply dfs_search_defined.
    + by apply bfs_search_defined.
    + by apply dfs_search_defined.
  - apply optimise_defined. intros g Hg. apply call_defined.
    apply dfs_search_defined, gear_choices_cover.
    by rewrite <- (proj1 (gear_choices_eq skills)).
  - apply optimise_defined. intros g Hg. apply call_defined.
    apply bfs_search_defined, gear_choices_cover.
    by rewrite <- (proj1 (gear_choices_eq skills)).
  - apply optimise_defined. intros g Hg. apply call_defined.
    apply dfs_search_defined, gear_choices_cover.
    by rewrite <- (proj2 (gear_choices_eq skills)).
Qed.

Lemma no_read_past_the_end_witness :
  Spec.covers [0] Inputs.scenarioA
  ∧ Dfs.findBestDamageSchedule 2 (Spec.args_of Inputs.scenarioA [0]) 11
    ≠ Undefined.
Proof.
  assert (H : Spec.covers [0] Inputs.scenarioA)
    by (unfold Spec.covers; simpl; lia).
  split; [done|].
  exact (proj1 (proj1 (no_read_past_the_end 2 Inputs.scenarioA 11) [0]
                  0%nat H)).
Defined.

(** ** The checkpoint heaps *)

Section Heaps.
Import More.

Lemma heap_enqueue_length s h :
  Bfs.Heap.size (Bfs.Heap.enqueue s h) = S (Bfs.Heap.size h).
Proof.
  unfold Bfs.Heap.size. induction h as [|x h IH]; simpl; [done|].
  destruct (Qlt_le_dec _ _); simpl; [done|]. by rewrite IH.
Qed.

Lemma heap_enqueue_Forall (P : Bfs.State → Prop) s h :
  P s → Forall P h → Forall P (Bfs.Heap.enqueue s h).
Proof.
  intros Hs. induction 1 as [|x h Hx Hh IH]; simpl.
  - by constructor.
  - destruct (Qlt_le_dec _ _); repeat constructor; done.
Qed.

Lemma heap_at_bounded K cp m :
  heaps_bounded K m →
  (Bfs.Heap.size (Bfs.heap_at cp m) ≤ K)%nat
  ∧ Forall (fun s => Bfs.checkpoint_of (Bfs.currentTime s) = cp)
      (Bfs.heap_at cp m).
Proof.
  intros Hinv. unfold Bfs.heap_at.
  destruct (Bfs.topStatesPerCheckpoint m !! cp) as [h|] eqn:Hh; simpl.
  - by apply Hinv.
  - split; [unfold Bfs.Heap.size; simpl; lia | constructor].
Qed.

Lemma set_heap_bounded K cp h m :
  heaps_bounded K m →
  (Bfs.Heap.size h ≤ K)%nat →
  Forall (fun s => Bfs.checkpoint_of (Bfs.currentTime s) = cp) h →
  heaps_bounded K (Bfs.set_heap cp h m).
Proof.
  intros Hinv Hsize Hb cp' h'. simpl. rewrite lookup_insert.
  case_decide as Hcp.
  - intros [= <-]. subst cp'. done.
  - apply Hinv.
Qed.

(** The retention decision never lets a checkpoint exceed the capacity and
    files a state under the checkpoint of its own time. *)
Lemma retain_bounded K s m :
  heaps_bounded K m → heaps_bounded K (Bfs.retain K s m).
Proof.
  intros Hinv. unfold Bfs.retain.
  set (cp := Bfs.checkpoint_of (Bfs.currentTime s)).
  destruct (heap_at_bounded K cp m Hinv) as [Hsize Hbucket].
  destruct (decide _) as [Hroom|Hfull].
  { intros cp' h'. simpl. apply (set_heap_bounded K cp _ m Hinv).
    - rewrite heap_enqueue_length. lia.
    - by apply heap_enqueue_Forall. }
  destruct (Bfs.Heap.front (Bfs.heap_at cp m)) as [worst|] eqn:Hfront.
  - destruct (Qlt_le_dec _ _).
    + intros cp' h'. simpl. apply (set_heap_bounded K cp _ m Hinv).
      * rewrite heap_enqueue_length.
        unfold Bfs.Heap.front, Bfs.Heap.dequeue, Bfs.Heap.size in *.
        destruct (Bfs.heap_at cp m); simpl in *; [done | lia].
      * apply heap_enqueue_Forall; [done|].
        unfold Bfs.Heap.dequeue.
        destruct (Bfs.heap_at cp m); simpl; [done|].
        by apply Forall_cons in Hbucket as [_ ?].
    + intros cp' h'. simpl. by apply (set_heap_bounded K cp _ m Hinv).
  - intros cp' h'. simpl. by apply (set_heap_bounded K cp _ m Hinv).
Qed.

Lemma expand_bounded K timeLimit cooldown state i m m' :
  Bfs.expand K timeLimit cooldown state i m = Done m' →
  heaps_bounded K m → heaps_bounded K m'.
Proof.
  intros H Hinv.
  apply expand_inv in H as [[-> _]|(skill & c & cd & _ & _ & _ & ->)];
    [done|]. by apply retain_bounded.
Qed.

Lemma loop_bounded K timeLimit cooldown fuel : ∀ m m',
  Bfs.loop K timeLimit cooldown fuel m = Done m' →
  heaps_bounded K m → heaps_bounded K m'.
Proof.
  induction fuel as [|fuel IH]; intros m m' Hrun Hinv; simpl in Hrun.
  { destruct (Bfs.queue m); [|done]. by injection Hrun as <-. }
  destruct (Bfs.queue m) as [|state rest]; [by injection Hrun as <-|].
  apply bind_Done in Hrun as (mc & Hexp & Hloop).
  apply (IH mc m' Hloop).
  revert Hexp.
  match goal with
  | |- for_each _ _ ?mb = _ → _ =>
      assert (Hb : heaps_bounded K mb) by (by destruct (Qlt_le_dec _ _));
      revert Hb; generalize mb
  end.
  intros mb Hb Hexp. revert Hb.
  eapply (for_each_preserves
            (fun m m' => heaps_bounded K m → heaps_bounded K m'));
    [done | by auto | | exact Hexp].
  intros i m1 m2 _. apply expand_bounded.
Qed.

(** The bucket of a time: the multiple of five at or just below it. *)
Lemma checkpoint_bounds (x : Q) :
  inject_Z (Bfs.checkpoint_of x) <= x
  ∧ x < inject_Z (Bfs.checkpoint_of x) + 5
  ∧ (Bfs.checkpoint_of x mod 5 = 0)%Z.
Proof.
  unfold Bfs.checkpoint_of. rewrite inject_Z_mult.
  pose proof (Qfloor_le (x / 5)) as Hlo.
  pose proof (Qlt_floor (x / 5)) as Hhi.
  rewrite inject_Z_plus in Hhi.
  assert (Hx : x == x / 5 * 5) by (field; lra).
  change (inject_Z 5) with 5. change (inject_Z 1) with 1 in Hhi.
  split_and!.
  - rewrite Hx at 2. apply Qmult_le_compat_r; [done | by vm_compute].
  - assert (x / 5 * 5 < (inject_Z (Qfloor (x / 5)) + 1) * 5)
      by (apply Qmult_lt_compat_r; [by vm_compute | done]).
    lra.
  - apply Z.mod_mul. lia.
Qed.

End Heaps.

(** X8: the retention policy keeps its bound.  After any run of the
    bounded-frontier search with capacity [K], every checkpoint holds at
    most [K] states, its key is a multiple of five, and every state it
    holds ended its last cast in the five units that start at that key. *)
Theorem checkpoints_bounded K fuel a timeLimit r m :
  Bfs.run K fuel a timeLimit = Done (r, m) →
  ∀ cp h, Bfs.topStatesPerCheckpoint m !! cp = Some h →
    (Bfs.Heap.size h ≤ K)%nat
    ∧ Forall (fun s => inject_Z cp <= Bfs.currentTime s
                       ∧ Bfs.currentTime s < inject_Z cp + 5
                       ∧ (cp mod 5 = 0)%Z) h.
Proof.
  unfold Bfs.run. intros Hrun cp h Hh.
  apply bind_Done in Hrun as (m' & Hloop & [= <- <-]).
  apply loop_bounded in Hloop; [|by intros cp' h'; simpl].
  destruct (Hloop cp h Hh) as [Hsize Hbucket]. split; [done|].
  eapply Forall_impl; [exact Hbucket|]. intros s <-. apply checkpoint_bounds.
Qed.

Lemma checkpoints_bounded_witness :
  ∃ r m,
    Bfs.run 1 3 (Spec.args_of Inputs.scenarioA [0]) 11 = Done (r, m)
    ∧ ∀ cp h, Bfs.topStatesPerCheckpoint m !! cp = Some h →
        (Bfs.Heap.size h ≤ 1)%nat
        ∧ Forall (fun s => inject_Z cp <= Bfs.currentTime s
                           ∧ Bfs.currentTime s < inject_Z cp + 5
                           ∧ (cp mod 5 = 0)%Z) h.
Proof.
  do 2 eexists. split; [by vm_compute|].
  eapply (checkpoints_bounded 1 3 (Spec.args_of Inputs.scenarioA [0]) 11).
  by vm_compute.
Defined.

(** ** The optimisers, for any tie test that is exact on the damages met *)

Section SetupAnyTie.
Import Setup Spec.

Variable search : list Skill → list Q → Q → outcome ScheduleResult.
Variable tie : Q → Q → bool.
Variable skills : list Skill.
Variable timeLimit : Q.
Variable combos : list (list Q).

Hypothesis search_nonneg :
  ∀ g r, search skills g timeLimit = Done r → 0 <= totalDamage r.

(** Equal damages tie. *)
Hypothesis tie_equal : ∀ x y, x == y → tie x y = true.

(** Among the damages of the enumerated assignments only equal ones tie. *)
Hypothesis tie_exact : ∀ g r g0 r0 top,
  g ∈ combos → g0 ∈ combos →
  search skills g timeLimit = Done r →
  search skills g0 timeLimit = Done r0 →
  totalDamage r0 == top →
  tie (totalDamage r) top = true → totalDamage r == top.

Local Abbreviation consider := (consider search tie skills timeLimit).
Local Abbreviation selected := (selected search skills timeLimit).

Lemma consider_selected_any seen b g b' :
  (∀ x, x ∈ seen ++ [g] → x ∈ combos) →
  (seen = [] ∧ b = start) ∨ selected seen b →
  consider g b = Done b' →
  selected (seen ++ [g]) b'.
Proof.
  intros Hsub Hinv Hstep. unfold Setup.consider in Hstep.
  apply bind_Done in Hstep as (r & Hr & Hstep).
  pose proof (search_nonneg g r Hr) as Hnn.
  assert (Hg : g ∈ combos) by (apply Hsub, elem_of_app; right; by left).
  destruct (Qlt_le_dec (topDamage b) (totalDamage r)) as [Hgt|Hle].
  { injection Hstep as <-. exists r. simpl. split_and!; try done.
    - apply elem_of_app. right. by left.
    - intros g' r' Hg' Hr'. apply elem_of_app in Hg' as [Hg'|Hg'].
      + destruct Hinv as [[-> _]|(_ & _ & _ & _ & _ & _ & Hall)];
          [by apply elem_of_nil in Hg'|].
        destruct (Hall g' r' Hg' Hr') as [Hle' _]. split; lra.
      + apply list_elem_of_singleton in Hg' as ->.
        assert (r' = r) as -> by congruence. split; lra. }
  assert (Heq : tie (totalDamage r) (topDamage b) = true →
                totalDamage r == topDamage b).
  { intros Htie.
    destruct Hinv as [[_ ->]|(r0 & Hin & Hr0 & Hd0 & _)].
    - simpl in *. lra.
    - eapply (tie_exact g r (bestGear b) r0); try done.
      apply Hsub, elem_of_app. by left. }
  destruct (tie (totalDamage r) (topDamage b)) eqn:Htie.
  - specialize (Heq eq_refl).
    destruct (cheaper (gear_cost g) (bestGearCost b)) eqn:Hch.
    + apply cheaper_true in Hch.
      injection Hstep as <-. exists r. simpl. split_and!; try done.
      * apply elem_of_app. right. by left.
      * intros g' r' Hg' Hr'. apply elem_of_app in Hg' as [Hg'|Hg'].
        -- destruct Hinv as [[-> _]|(_ & _ & _ & _ & _ & Hcost & Hall)];
             [by apply elem_of_nil in Hg'|].
           rewrite Hcost in Hch.
           destruct (Hall g' r' Hg' Hr') as [Hle' Hmin].
           split; [done|]. intros Heq'. specialize (Hmin Heq'). lra.
        -- apply list_elem_of_singleton in Hg' as ->.
           assert (r' = r) as -> by congruence. split; lra.
    + apply cheaper_false in Hch as (c & Hc & Hcle).
      injection Hstep as <-.
      destruct Hinv as [[_ ->]|(r0 & Hin & Hr0 & Hd0 & Hs0 & Hcost & Hall)];
        [done|].
      exists r0. split_and!; try done.
      * apply elem_of_app. by left.
      * intros g' r' Hg' Hr'. apply elem_of_app in Hg' as [Hg'|Hg'];
          [by apply Hall|].
        apply list_elem_of_singleton in Hg' as ->.
        assert (r' = r) as -> by congruence.
        split; [lra|]. intros _. rewrite Hcost in Hc. injection Hc as <-.
        done.
  - injection Hstep as <-.
    assert (Hlt : totalDamage r < topDamage b).
    { apply Qle_lteq in Hle as [Hlt|Heq']; [done|].
      rewrite (tie_equal _ _ Heq') in Htie. done. }
    destruct Hinv as [[_ ->]|(r0 & Hin & Hr0 & Hd0 & Hs0 & Hcost & Hall)].
    { simpl in Hlt. lra. }
    exists r0. split_and!; try done.
    + apply elem_of_app. by left.
    + intros g' r' Hg' Hr'. apply elem_of_app in Hg' as [Hg'|Hg'];
        [by apply Hall|].
      apply list_elem_of_singleton in Hg' as ->.
      assert (r' = r) as -> by congruence.
      split; [lra|]. intros Heq'. lra.
Qed.

Lemma select_selected_any rest : ∀ seen b b',
  (∀ x, x ∈ seen ++ rest → x ∈ combos) →
  (seen = [] ∧ b = start) ∨ selected seen b →
  for_each consider rest b = Done b' →
  (rest = [] ∧ b' = b) ∨ selected (seen ++ rest) b'.
Proof.
  induction rest as [|g rest IH]; intros seen b b' Hsub Hinv Hrun.
  { left. simpl in Hrun. by injection Hrun as <-. }
  right. simpl in Hrun. apply bind_Done in Hrun as (b1 & Hstep & Hrest).
  assert (Hsub1 : ∀ x, x ∈ seen ++ [g] → x ∈ combos).
  { intros x Hx. apply Hsub. apply elem_of_app in Hx as [Hx|Hx].
    - apply elem_of_app. by left.
    - apply list_elem_of_singleton in Hx as ->.
      apply elem_of_app. right. by left. }
  pose proof (consider_selected_any _ _ _ _ Hsub1 Hinv Hstep) as Hsel.
  destruct (IH (seen ++ [g]) b1 b') as [[-> ->]|Hfin];
    [by rewrite <- app_assoc | by right | done | |].
  - exact Hsel.
  - by rewrite <- app_assoc in Hfin.
Qed.

(** What the optimiser returns when it had an assignment to consider. *)
Lemma optimise_coherent_any res :
  combos ≠ [] →
  optimise search tie skills timeLimit combos = Done res →
  More.coherent search skills timeLimit combos res
  ∧ tie_break_rule search skills timeLimit combos (chosenGearPercents res).
Proof.
  intros Hne Hrun. unfold optimise, select in Hrun.
  apply bind_Done in Hrun as (b & Hsel & [= <-]). simpl.
  apply (select_selected_any combos [] start) in Hsel as [[-> _]|Hsel];
    [done | | done | by left].
  simpl in Hsel. destruct Hsel as (r & Hin & Hr & Hd & Hq & _ & Hall).
  split.
  - exists r. simpl. split_and!; try done.
    intros g r' Hg Hr'. by destruct (Hall g r' Hg Hr').
  - intros g1 g2 r1 r2 Hg1 Hg2 Hr1 Hr2.
    destruct (Hall g1 r1 Hg1 Hr1) as [Hle1 Hmin1].
    destruct (Hall g2 r2 Hg2 Hr2) as [Hle2 Hmin2].
    split.
    + intros Hlt Hch. simpl in Hch. rewrite Hch in Hr.
      assert (r = r1) as -> by congruence. lra.
    + intros Heq Hcost Hch. simpl in Hch. rewrite Hch in Hr, Hmin1.
      assert (r = r2) as -> by congruence.
      assert (Heq1 : totalDamage r1 == topDamage b) by lra.
      specialize (Hmin1 Heq1). lra.
Qed.

End SetupAnyTie.

Section TieTests.
Import Setup More.

Lemma same_damage_equal x y : x == y → same_damage x y = true.
Proof. apply Qeq_bool_iff. Qed.

Lemma same_damage_exact x y : same_damage x y = true → x == y.
Proof. apply Qeq_bool_iff. Qed.

Lemma close_damage_equal x y : x == y → close_damage x y = true.
Proof.
  intros Heq. unfold close_damage.
  destruct (Qlt_le_dec _ _) as [|Hge]; [done|]. exfalso.
  assert (Hz : x - y == 0) by lra. rewrite Hz in Hge.
  revert Hge. by vm_compute.
Qed.

Lemma close_damage_apart x y top :
  apart x y → y == top → close_damage x top = true → x == top.
Proof.
  intros [Heq|Hfar] Hy Hclose; [lra|]. exfalso.
  unfold close_damage in Hclose.
  destruct (Qlt_le_dec _ _) as [Hlt|]; [|done].
  assert (Hxy : x - y == x - top) by lra. rewrite Hxy in Hfar. lra.
Qed.

Lemma cartesian_nonempty options :
  Forall (fun opts : list Q => opts ≠ []) options →
  Gear.cartesian options ≠ [].
Proof.
  induction 1 as [|opts rest Hopts _ IH]; simpl; [done|].
  destruct opts as [|x opts]; [done|]. simpl.
  destruct (Gear.cartesian rest); [done|]. done.
Qed.

Lemma gear_choices_nonempty skills :
  Forall (fun skill => possibleSkillGear skill ≠ []) skills →
  Gear.generateAllGearChoices skills ≠ []
  ∧ Gear.generateAllGearChoices_cpp skills ≠ [].
Proof.
  intros H. destruct (gear_choices_eq skills) as [-> ->].
  assert (Gear.cartesian (map possibleSkillGear skills) ≠ []).
  { apply cartesian_nonempty. by apply Forall_fmap. }
  done.
Qed.

End TieTests.

(** X9: the result of the TypeScript optimisers is coherent.  When every
    action has at least one modifier option, the chosen assignment is one of
    the enumerated ones, the reported damage and cast sequence are the ones
    the schedule search returns for that assignment, and no enumerated
    assignment has more damage. *)
Theorem typescript_result_coherent fuel skills timeLimit res :
  Forall (fun skill => possibleSkillGear skill ≠ []) skills →
  (Setup.findBestDpsSetup fuel skills timeLimit = Done res →
   More.coherent (Setup.call (Dfs.findBestDamageSchedule fuel)) skills
     timeLimit (Gear.generateAllGearChoices skills) res)
  ∧ (Setup.findBestDpsSetup_queue fuel skills timeLimit = Done res →
     More.coherent (Setup.call (Bfs.findBestDamageSchedule fuel)) skills
       timeLimit (Gear.generateAllGearChoices skills) res).
Proof.
  intros Hopts. destruct (gear_choices_nonempty skills Hopts) as [Hne _].
  split; intros Hrun.
  - eapply (optimise_coherent_any _ Setup.same_damage); [| | |done|exact Hrun].
    + intros g r Hr. apply call_Done in Hr as (a' & Hr).
      by eapply dfs_search_nonneg.
    + apply same_damage_equal.
    + intros g r g0 r0 top _ _ _ _ _. apply same_damage_exact.
  - eapply (optimise_coherent_any _ Setup.same_damage); [| | |done|exact Hrun].
    + intros g r Hr. apply call_Done in Hr as (a' & Hr).
      by eapply bfs_search_nonneg.
    + apply same_damage_equal.
    + intros g r g0 r0 top _ _ _ _ _. apply same_damage_exact.
Qed.

Lemma typescript_result_coherent_witness :
  Forall (fun skill => possibleSkillGear skill ≠ []) Inputs.near_tie
  ∧ ∃ res,
      Setup.findBestDpsSetup 3 Inputs.near_tie 8 = Done res
      ∧ More.coherent (Setup.call (Dfs.findBestDamageSchedule 3))
          Inputs.near_tie 8 (Gear.generateAllGearChoices Inputs.near_tie) res.
Proof.
  assert (H : Forall (fun skill => possibleSkillGear skill ≠ [])
                Inputs.near_tie) by (by repeat constructor).
  split; [done|]. eexists. split; [by vm_compute|].
  eapply (proj1 (typescript_result_coherent 3 Inputs.near_tie 8 _ H)).
  by vm_compute.
Defined.

(** X10: [main.cpp] chooses as the TypeScript optimisers do when no two
    enumerated assignments have damages that differ by less than [EPS]
    without being equal: its result is then coherent, and of two
    assignments it does not choose the one with strictly less damage, nor,
    at equal damage, the one with the strictly greater summed modifier. *)
Theorem cpp_choice_when_separated fuel skills timeLimit res :
  Forall (fun skill => possibleSkillGear skill ≠ []) skills →
  More.separated (Setup.call (Dfs.findBestDamageSchedule_cpp fuel)) skills
    timeLimit (Gear.generateAllGearChoices_cpp skills) →
  Setup.findBestDpsSetup_cpp fuel skills timeLimit = Done res →
  More.coherent (Setup.call (Dfs.findBestDamageSchedule_cpp fuel)) skills
    timeLimit (Gear.generateAllGearChoices_cpp skills) res
  ∧ Spec.tie_break_rule (Setup.call (Dfs.findBestDamageSchedule_cpp fuel))
      skills timeLimit (Gear.generateAllGearChoices_cpp skills)
      (Setup.chosenGearPercents res).
Proof.
  intros Hopts Hsep Hrun.
  destruct (gear_choices_nonempty skills Hopts) as [_ Hne].
  eapply (optimise_coherent_any _ Setup.close_damage); [| | |done|exact Hrun].
  - intros g r Hr. apply call_Done in Hr as (a' & Hr).
    by eapply dfs_search_nonneg.
  - apply close_damage_equal.
  - intros g r g0 r0 top Hg Hg0 Hr Hr0 Htop.
    apply (close_damage_apart _ (totalDamage r0)); [|done].
    by apply (Hsep g g0 r r0).
Qed.

Lemma cpp_choice_when_separated_witness :
  Forall (fun skill => possibleSkillGear skill ≠ []) Inputs.scenarioA
  ∧ More.separated (Setup.call (Dfs.findBestDamageSchedule_cpp 3))
      Inputs.scenarioA 11 (Gear.generateAllGearChoices_cpp Inputs.scenarioA)
  ∧ ∃ res,
      Setup.findBestDpsSetup_cpp 3 Inputs.scenarioA 11 = Done res
      ∧ More.coherent (Setup.call (Dfs.findBestDamageSchedule_cpp 3))
          Inputs.scenarioA 11
          (Gear.generateAllGearChoices_cpp Inputs.scenarioA) res.
Proof.
  assert (H : Forall (fun skill => possibleSkillGear skill ≠ [])
                Inputs.scenarioA) by (by repeat constructor).
  assert (Hsep : More.separated
                   (Setup.call (Dfs.findBestDamageSchedule_cpp 3))
                   Inputs.scenarioA 11
                   (Gear.generateAllGearChoices_cpp Inputs.scenarioA)).
  { intros g1 g2 r1 r2 Hg1 Hg2 Hr1 Hr2.
    change (Gear.generateAllGearChoices_cpp Inputs.scenarioA)
      with [[0]] in Hg1, Hg2.
    apply list_elem_of_singleton in Hg1 as ->.
    apply list_elem_of_singleton in Hg2 as ->.
    left. assert (r1 = r2) as -> by congruence. reflexivity. }
  split; [done|]. split; [done|]. eexists. split; [by vm_compute|].
  eapply (proj1 (cpp_choice_when_separated 3 Inputs.scenarioA 11 _ H Hsep _)).
  Unshelve. by vm_compute.
Defined.

(** ** Which of the best plans the depth-first search returns *)

Section FirstBest.
Import Schedule DfsSpec More First.

Variable eps timeLimit : Q.
Variable cooldown : list (option Q).
Variable skills : list Skill.

Local Abbreviation try_cast := (Dfs.try_cast eps timeLimit cooldown).
Local Abbreviation dfs := (Dfs.dfs eps timeLimit cooldown).
Local Abbreviation post := (post skills cooldown timeLimit eps).
Local Abbreviation best_is := (best_is skills cooldown timeLimit eps).
Local Abbreviation records := (records skills cooldown timeLimit eps).
Local Abbreviation feasible_from :=
  (feasible_from skills cooldown (accepted timeLimit eps)).
Local Abbreviation dmg := (damage_from skills).

(** The order of the search is total: two plans are equal or one comes
    before the other. *)
Lemma before_total p : ∀ q, before p q ∨ p = q ∨ before q p.
Proof.
  induction p as [|i p IH]; intros [|j q]; simpl; auto.
  destruct (lt_eq_lt_dec i j) as [[Hlt|Heq]|Hgt]; auto.
  subst j. destruct (IH q) as [Hb|[Heq|Hb]]; auto.
  subst q. auto.
Qed.

Lemma before_irrefl p : ¬ before p p.
Proof.
  induction p as [|i p IH]; simpl; [tauto|]. intros [?|[_ ?]]; [lia|tauto].
Qed.

(** The loop over the skills from index [a] on. *)
Lemma dfs_loop_records (rec : Q → Q → Dfs.Mem → outcome Dfs.Mem) cur tot :
  (∀ cur' tot' m m', arg_skills (Dfs.args m) = skills →
     rec cur' tot' m = Done m' →
     frame m m' ∧ post cur' tot' m m' ∧ records cur' tot' m m') →
  ∀ b a m m',
    arg_skills (Dfs.args m) = skills →
    for_each (try_cast rec cur tot) (seq a b) m = Done m' →
    unchanged_best m m'
    ∨ ∃ i p,
        best_is cur tot m m' (i :: p)
        ∧ Dfs.bestDamageSoFar m < dmg tot (i :: p)
        ∧ ∀ j q, (a ≤ j)%nat →
            feasible_from (j :: q) (node cur m) →
            before (j :: q) (i :: p) →
            dmg tot (j :: q) < dmg tot (i :: p).
Proof.
  intros Hrec. induction b as [|b IH]; intros a m m' Hsk Hrun.
  { left. simpl in Hrun. by injection Hrun as <-. }
  simpl in Hrun. apply bind_Done in Hrun as (m1 & Hbody & Hrest).
  (* what the first iteration gives, as a loop over one index *)
  destruct (dfs_loop_post eps timeLimit cooldown skills rec cur tot) with
    (idx := [a]) (m := m) (m' := m1) as (Hfr1 & Hmono1 & Hcov1 & _).
  { intros cur' tot' ma mb Ha Hb. by destruct (Hrec cur' tot' ma mb Ha Hb)
      as (? & ? & _). }
  { done. }
  { simpl. by rewrite Hbody. }
  assert (Hsk1 : arg_skills (Dfs.args m1) = skills)
    by (destruct Hfr1 as (-> & _); done).
  assert (Hnode : node cur m1 = node cur m)
    by (unfold node; destruct Hfr1 as (_ & -> & _); done).
  assert (Hcs : Dfs.castSequence m1 = Dfs.castSequence m)
    by (by destruct Hfr1 as (_ & _ & ->)).
  destruct (IH (S a) m1 m' Hsk1 Hrest)
    as [[Hd Hq]|(i & p & (Hfeas & Hbd & Hbq) & Hbeat & Hlead)].
  - (* nothing recorded after the first iteration *)
    apply try_cast_inv in Hbody
      as [[-> _]|(skill & c & cd & m2 & Hs & Ha & Hcast & Hok & Hcall & ->)].
    { left. by split. }
    simpl in Hcall. rewrite Hsk in Hs, Hcast.
    set (m_in := Dfs.enter a (castEnd c + cd) (skillName skill) m) in *.
    destruct (Hrec _ _ m_in m2 Hsk Hcall) as (_ & _ & Hrecords).
    destruct Hrecords
      as [[Hd2 Hq2]|(p & (Hfeas & Hbd & Hbq) & Hbeat & _ & Hlead)].
    { left. split; simpl in *; congruence. }
    right. exists a, p. split_and!.
    + split_and!.
      * apply feasible_from_cons. exists c, (node (castEnd c) m_in). done.
      * rewrite (damage_from_cons _ _ _ _ _ Hs). simpl in Hd. congruence.
      * rewrite (names_cons _ _ _ _ Hs). simpl in Hq. rewrite Hq, Hbq.
        subst m_in. simpl. by rewrite <- app_assoc.
    + rewrite (damage_from_cons _ _ _ _ _ Hs). exact Hbeat.
    + intros j q Hj Hq' Hbefore. simpl in Hbefore.
      destruct Hbefore as [?|[-> Hbefore]]; [lia|].
      apply feasible_from_cons in Hq' as (c' & nd' & Hc' & _ & Hplan).
      rewrite Hcast in Hc'. injection Hc' as <- <-.
      rewrite !(damage_from_cons _ _ _ _ _ Hs). by apply Hlead.
  - (* a later iteration recorded the plan [i :: p] *)
    right. exists i, p. split_and!.
    + split_and!; [by rewrite <- Hnode | done | by rewrite Hbq, Hcs].
    + lra.
    + intros j q Hj Hq' Hbefore.
      destruct (decide (j = a)) as [->|Hne].
      * specialize (Hcov1 a q (list_elem_of_here _ _) Hq'). lra.
      * apply Hlead; [lia | by rewrite Hnode | done].
Qed.

(** A call of [dfs] records nothing, or a plan that beats the previous
    best and every accepted plan visited before it. *)
Lemma dfs_records fuel : ∀ cur tot m m',
  arg_skills (Dfs.args m) = skills →
  dfs fuel cur tot m = Done m' → records cur tot m m'.
Proof.
  induction fuel as [|fuel IH]; intros cur tot m m' Hsk Hrun; [done|].
  simpl in Hrun.
  set (m1 := if Qlt_le_dec (Dfs.bestDamageSoFar m) tot
             then Dfs.record_best tot m else m) in *.
  assert (Hsk1 : arg_skills (Dfs.args m1) = skills)
    by (subst m1; by destruct (Qlt_le_dec _ _)).
  assert (Hnode : node cur m1 = node cur m)
    by (subst m1; by destruct (Qlt_le_dec _ _)).
  assert (Hcs : Dfs.castSequence m1 = Dfs.castSequence m)
    by (subst m1; by destruct (Qlt_le_dec _ _)).
  destruct (dfs_loop_records (dfs fuel) cur tot) with
    (b := length (arg_skills (Dfs.args m1))) (a := 0%nat) (m := m1) (m' := m')
    as [[Hd Hq]|(i & p & (Hfeas & Hbd & Hbq) & Hbeat & Hlead)];
    [| done | done | |].
  { intros cur' tot' ma mb Ha Hb. split_and!.
    - by eapply dfs_frame.
    - by eapply dfs_post.
    - by eapply IH. }
  - (* the loop recorded nothing *)
    subst m1. destruct (Qlt_le_dec (Dfs.bestDamageSoFar m) tot) as [Hlt|].
    + right. exists []. split_and!.
      * split_and!; [apply feasible_from_nil | by rewrite Hd |].
        rewrite Hq. simpl. by rewrite app_nil_r.
      * exact Hlt.
      * split; [apply feasible_from_nil|]. intros q _ Hbefore.
        by destruct q.
    + by left.
  - (* the loop recorded [i :: p] *)
    right. exists (i :: p).
    assert (Hbase : Dfs.bestDamageSoFar m <= Dfs.bestDamageSoFar m1
                    ∧ tot <= Dfs.bestDamageSoFar m1).
    { subst m1. destruct (Qlt_le_dec _ _); simpl; lra. }
    split_and!.
    + split_and!; [by rewrite <- Hnode | done | by rewrite Hbq, Hcs].
    + lra.
    + split; [by rewrite <- Hnode|]. intros [|j q] Hq' Hbefore.
      * change (dmg tot []) with tot. destruct Hbase as [_ Htot]. lra.
      * apply Hlead; [lia | by rewrite Hnode | done].
Qed.

End FirstBest.

Section FirstBestSearch.
Import Schedule More First.

(** The first of the greatest plans is unique. *)
Lemma first_greatest_unique skills cooldown ok p p' :
  first_greatest skills cooldown ok p →
  first_greatest skills cooldown ok p' → p = p'.
Proof.
  intros [Hp Hmax] [Hp' Hmax'].
  destruct (before_total p p') as [Hb|[?|Hb]]; [|done|].
  - destruct (Hmax' p Hp) as [_ Hlt]. destruct (Hmax p' Hp') as [Hle _].
    specialize (Hlt Hb). lra.
  - destruct (Hmax p' Hp') as [_ Hlt]. destruct (Hmax' p Hp) as [Hle _].
    specialize (Hlt Hb). lra.
Qed.

Lemma dfs_search_first eps fuel a timeLimit r a' :
  Dfs.search eps fuel a timeLimit = Done (r, a') →
  ∃ p,
    first_greatest (arg_skills a)
      (effectiveRecast (arg_skills a) (arg_gearCombo a))
      (accepted timeLimit eps) p
    ∧ totalDamage r = plan_damage (arg_skills a) p
    ∧ sequence r = names (arg_skills a) p.
Proof.
  intros Hrun.
  pose proof (dfs_search_post _ _ _ _ _ _ Hrun) as (_ & Hmax & _).
  unfold Dfs.search in Hrun.
  apply bind_Done in Hrun as (m & Hrun & [= <- <-]). simpl in *.
  apply (dfs_records _ _ _ (arg_skills a)) in Hrun; [|done].
  destruct Hrun as [[Hd Hq]|(p & (Hfeas & Hbd & Hbq) & _ & _ & Hlead)].
  - exists []. rewrite Hd, Hq. split_and!; [|done|done].
    split; [apply feasible_from_nil|]. intros q Hq'. split.
    + change (plan_damage (arg_skills a) [])
        with (Dfs.bestDamageSoFar (Dfs.initial a)). rewrite <- Hd.
      by apply Hmax.
    + by destruct q.
  - exists p. split_and!; [|done|done].
    split; [done|]. intros q Hq'. split.
    + unfold plan_damage. rewrite <- Hbd. by apply Hmax.
    + by apply Hlead.
Qed.

End FirstBestSearch.



(** ** Casts follow one another *)

Section TimingFacts.
Import Schedule Timing.

Variable skills : list Skill.
Variable cooldown : list (option Q).
Hypothesis Hforward : forward skills cooldown.

(** No cast of a replay starts before the clock of the node it is replayed
    from, nor before its action was available there. *)
Lemma replay_not_before plan : ∀ nd cs nd',
  replay skills cooldown plan nd = Some (cs, nd') →
  Forall (fun c => now nd <= startTime c
                   ∧ ∀ x, avail nd !! who c = Some x → x <= startTime c) cs.
Proof.
  destruct Hforward as [Hdur Hcd].
  induction plan as [|i plan IH]; intros nd cs nd' Hrun.
  { simpl in Hrun. injection Hrun as <- <-. constructor. }
  simpl in Hrun.
  destruct (cast_at skills cooldown i nd) as [[c0 nd0]|] eqn:Hc; [|done].
  simpl in Hrun.
  destruct (replay skills cooldown plan nd0) as [[cs0 nd3]|] eqn:Hr; [|done].
  simpl in Hrun. injection Hrun as <- <-.
  specialize (IH _ _ _ Hr).
  unfold cast_at in Hc.
  destruct (skills !! i) as [skill|] eqn:Hs; [|done]. simpl in Hc.
  destruct (avail nd !! i) as [a|] eqn:Ha; [|done]. simpl in Hc.
  destruct (cooldown !! i) as [[cd|]|] eqn:Hcdi; [|done|done]. simpl in Hc.
  injection Hc as <- <-.
  eapply Forall_lookup_1 in Hdur; [|exact Hs]. simpl in Hdur.
  eapply Forall_lookup_1 in Hcd; [|exact Hcdi]. specialize (Hcd cd eq_refl).
  pose proof (Q.le_max_l (now nd) a) as Hl.
  pose proof (Q.le_max_r (now nd) a) as Hr'.
  constructor.
  - simpl. split; [done|]. intros x Hx. rewrite Ha in Hx. by injection Hx as <-.
  - eapply Forall_impl; [exact IH|]. simpl. intros c [Hnow Hav]. split; [lra|].
    intros x Hx. destruct (decide (who c = i)) as [Hi|Hne].
    + rewrite Hi in Hx, Hav. rewrite Ha in Hx. injection Hx as <-.
      specialize (Hav _ (list_lookup_insert_eq _ _ _
                           (lookup_lt_Some _ _ _ Ha))). lra.
    + apply Hav. by rewrite list_lookup_insert_ne.
Qed.

(** The casts of a replay are in order. *)
Lemma replay_in_order plan : ∀ nd cs nd',
  replay skills cooldown plan nd = Some (cs, nd') → in_order cooldown cs.
Proof.
  induction plan as [|i plan IH]; intros nd cs nd' Hrun.
  { simpl in Hrun. injection Hrun as <- <-. constructor. }
  simpl in Hrun.
  destruct (cast_at skills cooldown i nd) as [[c0 nd0]|] eqn:Hc; [|done].
  simpl in Hrun.
  destruct (replay skills cooldown plan nd0) as [[cs0 nd3]|] eqn:Hr; [|done].
  simpl in Hrun. injection Hrun as <- <-.
  constructor; [|by eapply IH].
  pose proof (replay_not_before _ _ _ _ Hr) as Hnb.
  unfold cast_at in Hc.
  destruct (skills !! i) as [skill|] eqn:Hs; [|done]. simpl in Hc.
  destruct (avail nd !! i) as [a|] eqn:Ha; [|done]. simpl in Hc.
  destruct (cooldown !! i) as [[cd|]|] eqn:Hcdi; [|done|done]. simpl in Hc.
  injection Hc as <- <-. simpl in *.
  apply List.Forall_forall. intros c Hin.
  apply list_elem_of_In in Hin.
  eapply Forall_forall in Hnb as [Hnow Hav]; [|exact Hin]. simpl in *.
  split; simpl; [done|]. intros Hwho cd' Hcd'.
  rewrite Hcdi in Hcd'. injection Hcd' as <-.
  apply Hav. rewrite <- Hwho.
  apply list_lookup_insert_eq. by eapply lookup_lt_Some.
Qed.

(** With durations of at least [cmin], a replay of [k] casts ends at least
    [k * cmin] after it began. *)
Lemma replay_duration cmin plan : ∀ nd cs nd',
  Forall (fun skill => cmin <= castTimeS skill) skills →
  replay skills cooldown plan nd = Some (cs, nd') →
  now nd + inject_Z (Z.of_nat (length plan)) * cmin <= now nd'.
Proof.
  induction plan as [|i plan IH]; intros nd cs nd' Hdur Hrun.
  { simpl in Hrun. injection Hrun as <- <-.
    change (inject_Z (Z.of_nat (length (@nil nat)))) with 0. lra. }
  simpl in Hrun.
  destruct (cast_at skills cooldown i nd) as [[c0 nd0]|] eqn:Hc; [|done].
  simpl in Hrun.
  destruct (replay skills cooldown plan nd0) as [[cs0 nd3]|] eqn:Hr; [|done].
  simpl in Hrun. injection Hrun as <- <-.
  specialize (IH _ _ _ Hdur Hr).
  unfold cast_at in Hc.
  destruct (skills !! i) as [skill|] eqn:Hs; [|done]. simpl in Hc.
  destruct (avail nd !! i) as [a|] eqn:Ha; [|done]. simpl in Hc.
  destruct (mjoin (cooldown !! i)) as [cd|]; [|done]. simpl in Hc.
  injection Hc as <- <-. simpl in IH.
  eapply Forall_lookup_1 in Hdur; [|exact Hs]. simpl in Hdur.
  pose proof (Q.le_max_l (now nd) a) as Hl.
  simpl length. rewrite inject_nat_S. lra.
Qed.

(** The last cast of a replay ends at the clock of the final node. *)
Lemma replay_last_end plan : ∀ nd cs nd' (bound : Q),
  replay skills cooldown plan nd = Some (cs, nd') →
  now nd <= bound → Forall (fun c => castEnd c <= bound) cs →
  now nd' <= bound.
Proof.
  induction plan as [|i plan IH]; intros nd cs nd' bound Hrun Hnd Hcs.
  { simpl in Hrun. by injection Hrun as <- <-. }
  simpl in Hrun.
  destruct (cast_at skills cooldown i nd) as [[c0 nd0]|] eqn:Hc; [|done].
  simpl in Hrun.
  destruct (replay skills cooldown plan nd0) as [[cs0 nd3]|] eqn:Hr; [|done].
  simpl in Hrun. injection Hrun as <- <-.
  apply Forall_cons in Hcs as [Hc0 Hcs].
  eapply IH; [exact Hr | | exact Hcs].
  unfold cast_at in Hc.
  destruct (skills !! i) as [skill|]; [|done]. simpl in Hc.
  destruct (avail nd !! i) as [a|]; [|done]. simpl in Hc.
  destruct (mjoin (cooldown !! i)) as [cd|]; [|done]. simpl in Hc.
  by injection Hc as <- <-.
Qed.

End TimingFacts.

Section TimedResults.
Import Schedule Timing.

Lemma feasible_timed skills gearCombo ok plan r :
  forward skills (effectiveRecast skills gearCombo) →
  feasible skills (effectiveRecast skills gearCombo) ok plan →
  sequence r = names skills plan →
  timed (Spec.args_of skills gearCombo) r.
Proof.
  intros Hfw (cs & nd & Hrun & _) Hq. exists plan, cs, nd. simpl.
  split_and!; [done | done |]. by eapply replay_in_order.
Qed.

Lemma feasible_count skills cooldown timeLimit eps cmin plan :
  0 <= timeLimit + eps →
  Forall (fun skill => cmin <= castTimeS skill) skills →
  feasible skills cooldown (accepted timeLimit eps) plan →
  inject_Z (Z.of_nat (length plan)) * cmin <= timeLimit + eps.
Proof.
  intros Hpos Hdur (cs & nd & Hrun & Hok).
  pose proof (replay_duration _ _ _ _ _ _ _ Hdur Hrun) as Hlen.
  pose proof (replay_last_end _ _ _ _ _ _ (timeLimit + eps) Hrun) as Hend.
  simpl in Hlen, Hend.
  assert (now nd <= timeLimit + eps).
  { apply Hend; [done|]. eapply Forall_impl; [exact Hok|]. by intros c [_ ?]. }
  lra.
Qed.

End TimedResults.




